(** * Random-walk samplers of multigraffity (src/walkers.py)

    A shallow embedding of the four walker classes and of their corpus
    driver.  Python floats are modelled by exact rationals ([Q]), the
    pseudo-random generator a walker draws from by a stream of raw draws
    that is threaded through every call, exceptions by the left summand of
    a result type, and networkx (multi)graphs by insertion-ordered
    association lists.  [BaseWalker], whose [do_walk] is a stub, has a
    record of its own, since its corpus holds [None]s and not walks. *)

From Stdlib Require Import String ZArith NArith QArith Qround Bool List Lia.
From Stdlib Require Import DecimalString.
Import ListNotations.

Local Open Scope Z_scope.

(** ** Exceptions, the generator state and the monad of the walkers *)

Inductive exn : Type :=
| AttributeError
| NetworkXError
| KeyError
| IndexError
| ZeroDivisionError
| ValueError (msg : string).

Definition result (A : Type) : Type := (exn + A)%type.

(** The generator state: the raw draws still to be consumed.  An exhausted
    stream keeps answering [0]. *)
Definition rng : Type := list N.

Definition M (A : Type) : Type := rng -> result (A * rng).

Definition ret {A} (a : A) : M A := fun r => inr (a, r).

Definition raise {A} (e : exn) : M A := fun _ => inl e.

Definition bind {A B} (m : M A) (k : A -> M B) : M B :=
  fun r => match m r with
           | inl e => inl e
           | inr (a, r') => k a r'
           end.

Definition lift {A} (x : result A) : M A :=
  match x with
  | inl e => raise e
  | inr a => ret a
  end.

Declare Scope walker_scope.
Delimit Scope walker_scope with walker.
Notation "x <- m ;; k" := (bind m (fun x => k))
  (at level 61, m at next level, right associativity) : walker_scope.
Notation "' pat <- m ;; k" := (bind m (fun x => match x with pat => k end))
  (at level 61, pat pattern, m at next level, right associativity) : walker_scope.
Local Open Scope walker_scope.

(** [for _ in range(n): s = body(s)] *)
Fixpoint for_range {S} (n : nat) (body : S -> M S) (s : S) : M S :=
  match n with
  | O => ret s
  | Datatypes.S n' => s' <- body s ;; for_range n' body s'
  end.

(** [for x in l: s = body(x, s)] *)
Fixpoint for_each {A S} (l : list A) (body : A -> S -> M S) (s : S) : M S :=
  match l with
  | [] => ret s
  | x :: l' => s' <- body x s ;; for_each l' body s'
  end.

(** [len(range(k))] for a Python integer [k]. *)
Definition range_len (k : Z) : nat := Z.to_nat k.

(** ** Graphs

    A networkx graph is a dict of dicts (of dicts): node -> neighbour ->
    edge key -> data dict.  Dicts iterate in insertion order, so each level
    is an association list; only the ['weight'] entry of a data dict is
    ever read. *)

Definition node : Type := Z.
Definition key : Type := Z.

Record EdgeData : Type := mkData { weight : option Q }.

Definition keydict : Type := list (key * EdgeData).
Definition adjdict : Type := list (node * keydict).

Record Graph : Type := mkGraph { adj : list (node * adjdict) }.

(** [d.get(k)] *)
Fixpoint lookup {V} (k : Z) (d : list (Z * V)) : option V :=
  match d with
  | [] => None
  | (k', v) :: d' => if Z.eqb k k' then Some v else lookup k d'
  end.

(** [graph.nodes()] *)
Definition nodes (g : Graph) : list node := map fst (adj g).

(** [graph.neighbors(n)] *)
Definition neighbors (g : Graph) (n : node) : M (list node) :=
  match lookup n (adj g) with
  | Some d => ret (map fst d)
  | None => raise NetworkXError
  end.

(** [graph[u][v]] *)
Definition getitem2 (g : Graph) (u v : node) : M keydict :=
  match lookup u (adj g) with
  | Some d => match lookup v d with
              | Some kd => ret kd
              | None => raise KeyError
              end
  | None => raise KeyError
  end.

(** [data['weight']] *)
Definition getweight (data : EdgeData) : M Q :=
  match weight data with
  | Some w => ret w
  | None => raise KeyError
  end.

(** [str(w)] for an integer node label. *)
Definition str (n : node) : string := NilZero.string_of_int (Z.to_int n).

(** The last element, if any. *)
Fixpoint last_error {A} (l : list A) : option A :=
  match l with
  | [] => None
  | [x] => Some x
  | _ :: l' => last_error l'
  end.

(** [l[-1]] *)
Definition getitem_last {A} (l : list A) : M A :=
  match last_error l with
  | Some x => ret x
  | None => raise IndexError
  end.

(** [l[i]] *)
Definition getitem {A} (l : list A) (i : nat) : M A :=
  match nth_error l i with
  | Some x => ret x
  | None => raise IndexError
  end.

(** ** The library calls the walkers make *)

(** The fraction the next raw draw stands for: 53 bits, in [[0, 1)]. *)
Definition draw (r : rng) : Q := Z.of_N (hd 0%N r mod 2 ^ 53) # 2 ^ 53.

(** [random.random()] *)
Definition random : M Q := fun r => inr (draw r, tl r).

(** The generator's [_randbelow(n)], [n > 0]: some index below [n],
    taken here from one raw draw. *)
Definition randbelow (n : nat) : M nat :=
  fun r => inr (N.to_nat (hd 0%N r mod N.of_nat n), tl r).

(** [random.sample(population, 1)] *)
Definition random_sample1 {A} (population : list A) : M (list A) :=
  let n := length population in
  if (n <? 1)%nat
  then raise (ValueError "Sample larger than population or is negative")
  else j <- randbelow n ;;
       x <- getitem population j ;;
       ret [x].

(** [itertools.accumulate(weights)] *)
Fixpoint accumulate_from (acc : Q) (ws : list Q) : list Q :=
  match ws with
  | [] => []
  | w :: ws' => (acc + w)%Q :: accumulate_from (acc + w)%Q ws'
  end.

Definition accumulate (ws : list Q) : list Q :=
  match ws with
  | [] => []
  | w :: ws' => w :: accumulate_from w ws'
  end.

(** [x < y] *)
Definition Qlt_bool (x y : Q) : bool := negb (Qle_bool y x).

(** [bisect.bisect_right(a, x, lo, hi)]; the interval halves at each turn,
    so [hi - lo] turns are more than enough. *)
Fixpoint bisect_loop (fuel : nat) (a : list Q) (x : Q) (lo hi : nat) : nat :=
  match fuel with
  | O => lo
  | Datatypes.S fuel' =>
      if (lo <? hi)%nat then
        let mid := ((lo + hi) / 2)%nat in
        if Qlt_bool x (nth mid a 0%Q)
        then bisect_loop fuel' a x lo mid
        else bisect_loop fuel' a x (mid + 1)%nat hi
      else lo
  end.

Definition bisect (a : list Q) (x : Q) (lo hi : nat) : nat :=
  bisect_loop (hi - lo) a x lo hi.

(** [random.choices(population, weights=weights, k=1)] (CPython >= 3.9). *)
Definition random_choices {A} (population : list A) (weights : list Q)
  : M (list A) :=
  let n := length population in
  let cum_weights := accumulate weights in
  if negb (length cum_weights =? n)%nat
  then raise (ValueError "The number of weights does not match the population")
  else
    total <- getitem_last cum_weights ;;
    if Qle_bool total 0
    then raise (ValueError "Total of weights must be greater than zero")
    else
      u <- random ;;
      x <- getitem population (bisect cum_weights (u * total)%Q 0 (n - 1)) ;;
      ret [x].

(** A numpy float: [None] stands for [nan] and the infinities. *)
Definition npfloat : Type := option Q.

(** [arr / s] on a float array: dividing by zero does not raise, it
    yields [nan] or an infinity. *)
Definition np_divide (arr : list Q) (s : Q) : list npfloat :=
  map (fun x => if Qeq_bool s 0 then None else Some (x / s)%Q) arr.

(** [arr[mask] = v] *)
Fixpoint setitem_mask (arr : list Q) (mask : list bool) (v : Q) : list Q :=
  match arr, mask with
  | a :: arr', m :: mask' => (if m then v else a) :: setitem_mask arr' mask' v
  | _, _ => arr
  end.

(** [arr == x], elementwise; [x] may be [None]. *)
Definition np_eq (arr : list node) (x : option node) : list bool :=
  map (fun a => match x with Some y => Z.eqb a y | None => false end) arr.

(** [np.isin(arr, test)] *)
Definition np_isin (arr test : list node) : list bool :=
  map (fun a => existsb (Z.eqb a) test) arr.

(** The builtin [sum(arr)]. *)
Definition py_sum (arr : list Q) : Q := fold_left Qplus arr 0%Q.

(** The entries of a float array, when none is [nan] or infinite. *)
Fixpoint all_finite (p : list npfloat) : option (list Q) :=
  match p with
  | [] => Some []
  | None :: _ => None
  | Some x :: p' => option_map (cons x) (all_finite p')
  end.

(** [np.random.choice(a, 1, p=p)[0]]: the checks on [a] and [p], then the
    search of a uniform draw in the cumulative probabilities
    ([cdf.searchsorted(u, side='right')]).  The sum of [p] is compared with
    1 exactly, where numpy allows a rounding tolerance. *)
Definition np_random_choice (a : list node) (p : list npfloat) : M node :=
  match a with
  | [] => raise (ValueError "'a' cannot be empty unless no samples are taken")
  | _ =>
      if negb (length p =? length a)%nat
      then raise (ValueError "'a' and 'p' must have same size")
      else match all_finite p with
           | None => raise (ValueError "probabilities contain NaN")
           | Some ps =>
               if existsb (fun x => Qlt_bool x 0) ps
               then raise (ValueError "probabilities are not non-negative")
               else if negb (Qeq_bool (py_sum ps) 1)
               then raise (ValueError "probabilities do not sum to 1")
               else
                 let cdf := accumulate ps in
                 u <- random ;;
                 getitem a (bisect cdf u 0 (length cdf))
           end
  end.

(** [a / b] on Python floats. *)
Definition py_div (a b : Q) : result Q :=
  if Qeq_bool b 0 then inl ZeroDivisionError else inr (a / b)%Q.

(** ** The walkers

    The four classes share their fields and their [do_walks]; a walker is
    one record tagged with its class, the class carrying the parameters
    its constructor adds.  [walks] and [graph] exist only once [do_walks]
    has bound them. *)

Inductive Strategy : Type :=
| RandomWalker
| BiasedRandomWalker (p q : Q)
| MultiRandomWalker
| MultiRandomWalkerWithHops (hop_rate : Q).

Record Walker : Type := mkWalker {
  cls : Strategy;
  walk_length : Z;
  walk_number : Z;
  walks : option (list (list string));
  graph : option Graph
}.

Definition set_walks (self : Walker) (ws : list (list string)) : Walker :=
  mkWalker (cls self) (walk_length self) (walk_number self) (Some ws) (graph self).

Definition set_graph (self : Walker) (g : Graph) : Walker :=
  mkWalker (cls self) (walk_length self) (walk_number self) (walks self) (Some g).

(** [self.graph] *)
Definition get_graph (self : Walker) : M Graph :=
  match graph self with
  | Some g => ret g
  | None => raise AttributeError
  end.

(** [self.walks] *)
Definition get_walks (self : Walker) : M (list (list string)) :=
  match walks self with
  | Some ws => ret ws
  | None => raise AttributeError
  end.

(** *** Constructors *)

Definition RandomWalker_init (walk_length walk_number : Z) : result Walker :=
  inr (mkWalker RandomWalker walk_length walk_number None None).

Definition BiasedRandomWalker_init (walk_length walk_number : Z) (p q : Q)
  : result Walker :=
  match py_div 1 p with
  | inl ZeroDivisionError =>
      inl (ValueError "The value of p is too small or zero to be used in 1/p.")
  | inl e => inl e
  | inr _ =>
      match py_div 1 q with
      | inl ZeroDivisionError =>
          inl (ValueError "The value of q is too small or zero to be used in 1/q.")
      | inl e => inl e
      | inr _ =>
          inr (mkWalker (BiasedRandomWalker p q) walk_length walk_number None None)
      end
  end.

Definition MultiRandomWalker_init (walk_length walk_number : Z) : result Walker :=
  inr (mkWalker MultiRandomWalker walk_length walk_number None None).

Definition MultiRandomWalkerWithHops_init (walk_length walk_number : Z)
  (hop_rate : Q) : result Walker :=
  if Qle_bool hop_rate 0
  then inl (ValueError "Hop rate must be a float number greater than zero.")
  else inr (mkWalker (MultiRandomWalkerWithHops hop_rate)
              walk_length walk_number None None).

(** *** RandomWalker.do_walk *)

Definition RandomWalker_step (self : Walker) (walk : list node)
  : M (list node) :=
  g <- get_graph self ;;
  cur <- getitem_last walk ;;
  nebs <- neighbors g cur ;;
  if (0 <? length nebs)%nat
  then s <- random_sample1 nebs ;; ret (walk ++ s)
  else ret walk.

Definition RandomWalker_do_walk (self : Walker) (node : node)
  : M (list string) :=
  walk <- for_range (range_len (walk_length self - 1))
            (RandomWalker_step self) [node] ;;
  ret (map str walk).

(** *** BiasedRandomWalker.do_walk *)

Record BiasedState : Type := mkBiased {
  b_walk : list node;
  previous_node : option node;
  previous_node_neighbors : list node
}.

(** The unnormalised transition weights, in the order of the three
    assignments of the loop body. *)
Definition biased_probability (p q : Q) (current_node_neighbors : list node)
  (previous_node : option node) (previous_node_neighbors : list node)
  : M (list Q) :=
  inv_q <- lift (py_div 1 q) ;;
  let probability := repeat inv_q (length current_node_neighbors) in
  inv_p <- lift (py_div 1 p) ;;
  let probability :=
    setitem_mask probability (np_eq current_node_neighbors previous_node) inv_p in
  let probability :=
    setitem_mask probability
      (np_isin current_node_neighbors previous_node_neighbors) 1%Q in
  ret probability.

Definition BiasedRandomWalker_step (self : Walker) (p q : Q) (st : BiasedState)
  : M BiasedState :=
  current_node <- getitem_last (b_walk st) ;;
  g <- get_graph self ;;
  current_node_neighbors <- neighbors g current_node ;;
  probability <- biased_probability p q current_node_neighbors
                   (previous_node st) (previous_node_neighbors st) ;;
  let norm_probability := np_divide probability (py_sum probability) in
  selected <- np_random_choice current_node_neighbors norm_probability ;;
  ret (mkBiased (b_walk st ++ [selected]) (Some current_node)
         current_node_neighbors).

Definition BiasedRandomWalker_do_walk (self : Walker) (p q : Q) (node : node)
  : M (list string) :=
  st <- for_range (range_len (walk_length self - 1))
          (BiasedRandomWalker_step self p q) (mkBiased [node] None []) ;;
  ret (map str (b_walk st)).

(** *** MultiRandomWalker.do_walk *)

(** The body of the innermost loop: one candidate for this parallel edge. *)
Definition multi_edge (neigh : node) (data : EdgeData)
  (acc : list node * list Q) : M (list node * list Q) :=
  let '(neighbors, weights) := acc in
  w <- getweight data ;;
  ret (neighbors ++ [neigh], weights ++ [w]).

(** The two nested loops over the unique neighbours and their edges. *)
Definition multi_candidates (g : Graph) (cur : node) (unique_neighbors : list node)
  : M (list node * list Q) :=
  for_each unique_neighbors
    (fun neigh acc =>
       kd <- getitem2 g cur neigh ;;
       for_each (map snd kd) (multi_edge neigh) acc)
    ([], []).

Definition MultiRandomWalker_step (self : Walker) (walk : list node)
  : M (list node) :=
  g <- get_graph self ;;
  cur <- getitem_last walk ;;
  unique_neighbors <- neighbors g cur ;;
  if (0 <? length unique_neighbors)%nat
  then
    ' (neighbors, weights) <- multi_candidates g cur unique_neighbors ;;
    s <- random_choices neighbors weights ;;
    ret (walk ++ s)
  else ret walk.

Definition MultiRandomWalker_do_walk (self : Walker) (node : node)
  : M (list string) :=
  walk <- for_range (range_len (walk_length self - 1))
            (MultiRandomWalker_step self) [node] ;;
  ret (map str walk).

(** *** MultiRandomWalkerWithHops.do_walk *)

(** [prev_key is not None and prev_key != key] *)
Definition key_neqb (prev_key : option key) (k : key) : bool :=
  match prev_key with
  | Some pk => negb (Z.eqb pk k)
  | None => false
  end.

(** The body of the innermost loop: the candidate of this parallel edge,
    its weight multiplied by the hop factor. *)
Definition hop_edge (hop_rate : Q) (prev_key : option key) (neigh : node)
  (item : key * EdgeData) (acc : list (node * key) * list Q)
  : M (list (node * key) * list Q) :=
  let '(key, data) := item in
  let '(neighbors, weights) := acc in
  let factor := if key_neqb prev_key key then hop_rate else 1%Q in
  w <- getweight data ;;
  ret (neighbors ++ [(neigh, key)], weights ++ [(w * factor)%Q]).

Definition hop_candidates (g : Graph) (hop_rate : Q) (prev_key : option key)
  (cur : node) (unique_neighbors : list node)
  : M (list (node * key) * list Q) :=
  for_each unique_neighbors
    (fun neigh acc =>
       kd <- getitem2 g cur neigh ;;
       for_each kd (hop_edge hop_rate prev_key neigh) acc)
    ([], []).

Definition MultiRandomWalkerWithHops_step (self : Walker) (hop_rate : Q)
  (st : list node * option key) : M (list node * option key) :=
  let '(walk, prev_key) := st in
  g <- get_graph self ;;
  cur <- getitem_last walk ;;
  unique_neighbors <- neighbors g cur ;;
  if (0 <? length unique_neighbors)%nat
  then
    ' (neighbors, weights) <-
        hop_candidates g hop_rate prev_key cur unique_neighbors ;;
    s <- random_choices neighbors weights ;;
    ' (node, key) <- getitem s 0 ;;
    ret (walk ++ [node], Some key)
  else ret (walk, prev_key).

Definition MultiRandomWalkerWithHops_do_walk (self : Walker) (hop_rate : Q)
  (node : node) : M (list string) :=
  ' (walk, _) <- for_range (range_len (walk_length self - 1))
                   (MultiRandomWalkerWithHops_step self hop_rate) ([node], None) ;;
  ret (map str walk).

(** *** Dispatch and the corpus driver *)

Definition do_walk (self : Walker) (node : node) : M (list string) :=
  match cls self with
  | RandomWalker => RandomWalker_do_walk self node
  | BiasedRandomWalker p q => BiasedRandomWalker_do_walk self p q node
  | MultiRandomWalker => MultiRandomWalker_do_walk self node
  | MultiRandomWalkerWithHops hop_rate =>
      MultiRandomWalkerWithHops_do_walk self hop_rate node
  end.

(** The body of the inner loop of [do_walks]. *)
Definition do_walks_body (node : node) (self : Walker) : M Walker :=
  walk_from_node <- do_walk self node ;;
  ws <- get_walks self ;;
  ret (set_walks self (ws ++ [walk_from_node])).

Definition do_walks (self : Walker) (graph : Graph) : M Walker :=
  let self := set_walks self [] in
  let self := set_graph self graph in
  for_each (nodes graph)
    (fun node self =>
       for_range (range_len (walk_number self)) (do_walks_body node) self)
    self.

(** *** BaseWalker

    The base class: [do_walk] is [pass], so it returns [None], and
    [do_walks] collects what [do_walk] returns. *)

Record BaseWalker : Type := mkBase {
  base_walk_length : Z;
  base_walk_number : Z;
  base_walks : option (list (option (list string)));
  base_graph : option Graph
}.

Definition BaseWalker_init (walk_length walk_number : Z) : result BaseWalker :=
  inr (mkBase walk_length walk_number None None).

Definition BaseWalker_do_walk (self : BaseWalker) (node : node)
  : M (option (list string)) :=
  ret None.

(** The body of the inner loop of [BaseWalker.do_walks]. *)
Definition BaseWalker_do_walks_body (node : node) (self : BaseWalker)
  : M BaseWalker :=
  walk_from_node <- BaseWalker_do_walk self node ;;
  match base_walks self with
  | Some ws =>
      ret (mkBase (base_walk_length self) (base_walk_number self)
             (Some (ws ++ [walk_from_node])) (base_graph self))
  | None => raise AttributeError
  end.

Definition BaseWalker_do_walks (self : BaseWalker) (graph : Graph) : M BaseWalker :=
  let self :=
    mkBase (base_walk_length self) (base_walk_number self) (Some []) (base_graph self) in
  let self :=
    mkBase (base_walk_length self) (base_walk_number self) (base_walks self)
      (Some graph) in
  for_each (nodes graph)
    (fun node self =>
       for_range (range_len (base_walk_number self))
         (BaseWalker_do_walks_body node) self)
    self.

(** * The vocabulary of the properties *)

(** The calls the driver is meant to make, one after the other, each
    starting from the generator state the previous one left. *)
Fixpoint mapM {A B} (f : A -> M B) (l : list A) : M (list B) :=
  match l with
  | [] => ret []
  | x :: l' => y <- f x ;; ys <- mapM f l' ;; ret (y :: ys)
  end.

(** Every node in the graph's own order, each repeated [K] times. *)
Definition call_order (g : Graph) (K : Z) : list node :=
  flat_map (fun n => repeat n (range_len K)) (nodes g).

(** [x == previous_node] *)
Definition is_previous (previous_node : option node) (x : node) : bool :=
  match previous_node with
  | Some y => Z.eqb x y
  | None => false
  end.

(** [x in previous_node_neighbors] *)
Definition is_common (previous_node_neighbors : list node) (x : node) : bool :=
  existsb (Z.eqb x) previous_node_neighbors.


(** What [np.random.choice] raises on an empty candidate array. *)
Definition empty_choice : exn :=
  ValueError "'a' cannot be empty unless no samples are taken".

(** The graph of the scenario: node 5 and a second node, no edge. *)
Definition two_isolated_nodes : Graph := mkGraph [(5, []); (6, [])].

(** The triangle on 0, 1, 2 with unit weights. *)
Definition unit_edge : keydict := [(0, mkData (Some 1%Q))].

Definition triangle : Graph :=
  mkGraph [(0, [(1, unit_edge); (2, unit_edge)]);
           (1, [(0, unit_edge); (2, unit_edge)]);
           (2, [(0, unit_edge); (1, unit_edge)])].

(** A directed edge from 0 to 1, and nothing out of 1. *)
Definition dead_end : Graph := mkGraph [(0, [(1, unit_edge)]); (1, [])].

(** Node 0 joined to 1 by two parallel edges, of weights 9 (key 0) and
    3 (key 1), and to 2 by one edge of weight 1. *)
Definition two_parallel : keydict :=
  [(0, mkData (Some 9%Q)); (1, mkData (Some 3%Q))].

Definition parallel : Graph :=
  mkGraph [(0, [(1, two_parallel); (2, unit_edge)]);
           (1, [(0, two_parallel)]);
           (2, [(0, unit_edge)])].

Local Open Scope Q_scope.


(** Two numpy float arrays with the same entries, written differently. *)
Definition npfloat_eq (x y : npfloat) : Prop :=
  match x, y with
  | Some a, Some b => a == b
  | None, None => True
  | _, _ => False
  end.


(** Every edge has a ['weight'] attribute. *)
Definition weighted (kd : keydict) : bool :=
  forallb (fun e => match weight (snd e) with Some _ => true | None => false end) kd.


(** The parallel edges [graph[cur][v]], for the adjacency [d] of [cur]. *)
Definition keydict_at (d : adjdict) (v : node) : keydict :=
  match lookup v d with
  | Some kd => kd
  | None => []
  end.










(** Every neighbour is itself a node of the graph. *)
Definition closed (g : Graph) : Prop :=
  forall u d v, In (u, d) (adj g) -> In v (map fst d) -> In v (nodes g).

(** Every pair of adjacent nodes has at least one edge, and every edge a
    positive weight. *)
Definition positive (g : Graph) : Prop :=
  forall u d v kd,
    In (u, d) (adj g) -> In (v, kd) d ->
    kd <> [] /\ Forall (fun e => exists w, weight (snd e) = Some w /\ 0 < w) kd.

(** No node without a neighbour. *)
Definition no_sink (g : Graph) : Prop :=
  forall u d, In (u, d) (adj g) -> d <> [].


(** Graphs and parameters on which every walk of the class returns. *)
Definition walkable (c : Strategy) (g : Graph) : Prop :=
  closed g /\
  match c with
  | RandomWalker => True
  | BiasedRandomWalker p q => 0 < p /\ 0 < q /\ no_sink g
  | MultiRandomWalker => positive g
  | MultiRandomWalkerWithHops hop_rate => 0 < hop_rate /\ positive g
  end.



(** The walk stopped on a node without neighbours. *)
Definition stuck (g : Graph) (walk : list node) : Prop :=
  exists cur, last_error walk = Some cur /\ lookup cur (adj g) = Some [].

(** A graph whose edge between 0 and 1 has no weight. *)
Definition bare_edge : keydict := [(0%Z, mkData None)].

Definition half_weighted : Graph :=
  mkGraph [(0%Z, [(2%Z, unit_edge); (1%Z, bare_edge)]);
           (1%Z, [(0%Z, bare_edge)]);
           (2%Z, [(0%Z, unit_edge)])].



(** The last move of the walk went along an edge of key [k]. *)
Definition arrived_by (g : Graph) (walk : list node) (k : key) : Prop :=
  exists pre u v d kd,
    walk = pre ++ [u; v] /\ lookup u (adj g) = Some d /\
    lookup v d = Some kd /\ In k (map fst kd).

(** What the hop walker remembers along a walk from [seed]: nothing before
    the first move, afterwards the key of the edge it came by. *)
Definition remembers (g : Graph) (seed : node) (st : list node * option key)
  : Prop :=
  match snd st with
  | None => fst st = [seed]
  | Some k => arrived_by g (fst st) k
  end.











(** After [k] guarded steps the walk has [1 + k] nodes or is stuck. *)
Definition full_or_stuck (g : Graph) (k : nat) (walk : list node) : Prop :=
  length walk = (1 + k)%nat \/ stuck g walk.

Local Open Scope Z_scope.

(** * Properties *)

(** ** Construction *)

Lemma py_div_ok (a b : Q) : ~ b == 0 -> py_div a b = inr (a / b)%Q.
Proof.
  intros Hb. unfold py_div.
  destruct (Qeq_bool b 0) eqn:E; [|reflexivity].
  apply Qeq_bool_iff in E. contradiction.
Qed.

Lemma py_div_zero (a b : Q) : b == 0 -> py_div a b = inl ZeroDivisionError.
Proof.
  intros Hb. unfold py_div.
  apply Qeq_bool_iff in Hb. now rewrite Hb.
Qed.

(** C6. The constructor of the biased walker raises [ValueError] exactly
    when [p] or [q] is zero, the constructor of the hop walker exactly when
    [hop_rate <= 0]; every other construction succeeds and stores the
    parameters it was given.  Constructors are pure: no draw is consumed
    and no walk is made. *)
Theorem init_validation :
  (forall L K p q,
      (p == 0 \/ q == 0 <->
       exists msg, BiasedRandomWalker_init L K p q = inl (ValueError msg)) /\
      (~ (p == 0 \/ q == 0) ->
       BiasedRandomWalker_init L K p q =
         inr (mkWalker (BiasedRandomWalker p q) L K None None))) /\
  (forall L K hop_rate,
      ((hop_rate <= 0)%Q <->
       exists msg,
         MultiRandomWalkerWithHops_init L K hop_rate = inl (ValueError msg)) /\
      (~ (hop_rate <= 0)%Q ->
       MultiRandomWalkerWithHops_init L K hop_rate =
         inr (mkWalker (MultiRandomWalkerWithHops hop_rate) L K None None))).
Proof.
  split.
  - intros L K p q. unfold BiasedRandomWalker_init.
    destruct (Qeq_dec p 0) as [Hp|Hp].
    + rewrite (py_div_zero _ _ Hp). split.
      * split; [intros _; eauto | intros _; now left].
      * intros H. exfalso. apply H. now left.
    + rewrite (py_div_ok _ _ Hp).
      destruct (Qeq_dec q 0) as [Hq|Hq].
      * rewrite (py_div_zero _ _ Hq). split.
        -- split; [intros _; eauto | intros _; now right].
        -- intros H. exfalso. apply H. now right.
      * rewrite (py_div_ok _ _ Hq). split.
        -- split; [intros [H|H]; contradiction | intros [msg H]; discriminate].
        -- reflexivity.
  - intros L K h. unfold MultiRandomWalkerWithHops_init.
    destruct (Qle_bool h 0) eqn:E.
    + apply Qle_bool_iff in E. split.
      * split; [intros _; eauto | intros _; exact E].
      * intros H. contradiction.
    + assert (Hn : ~ (h <= 0)%Q).
      { intros H. apply Qle_bool_iff in H. congruence. }
      split.
      * split; [intros H; contradiction | intros [msg H]; discriminate].
      * reflexivity.
Qed.

(** ** Reasoning about the monad and the loops *)

Lemma bind_inr {A B} (m : M A) (k : A -> M B) r b r' :
  bind m k r = inr (b, r') ->
  exists a r1, m r = inr (a, r1) /\ k a r1 = inr (b, r').
Proof.
  unfold bind. destruct (m r) as [e|[a r1]]; [discriminate|].
  intros H. now exists a, r1.
Qed.

Lemma bind_inl {A B} (m : M A) (k : A -> M B) r e :
  m r = inl e -> bind m k r = inl e.
Proof. unfold bind. now intros ->. Qed.

Lemma bind_step {A B} (m : M A) (k : A -> M B) r a r1 :
  m r = inr (a, r1) -> bind m k r = k a r1.
Proof. unfold bind. now intros ->. Qed.

Lemma bind_ret {A B} (a : A) (k : A -> M B) r : bind (ret a) k r = k a r.
Proof. reflexivity. Qed.

Lemma getitem_last_inr {A} (l : list A) r x r' :
  getitem_last l r = inr (x, r') -> last_error l = Some x /\ r' = r.
Proof.
  unfold getitem_last. destruct (last_error l); cbv [ret raise]; intros H;
    inversion H; auto.
Qed.

Lemma get_graph_inr self r g r' :
  get_graph self r = inr (g, r') -> graph self = Some g /\ r' = r.
Proof.
  unfold get_graph. destruct (graph self); cbv [ret raise]; intros H;
    inversion H; auto.
Qed.

Lemma getitem_last_ok {A} (l : list A) (x : A) (r : rng) :
  last_error l = Some x -> getitem_last l r = inr (x, r).
Proof. unfold getitem_last. now intros ->. Qed.

Lemma get_graph_ok (self : Walker) (g : Graph) (r : rng) :
  graph self = Some g -> get_graph self r = inr (g, r).
Proof. unfold get_graph. now intros ->. Qed.

Lemma neighbors_inr g n r l r' :
  neighbors g n r = inr (l, r') ->
  exists d, lookup n (adj g) = Some d /\ l = map fst d /\ r' = r.
Proof.
  unfold neighbors. destruct (lookup n (adj g)) as [d|]; cbv [ret raise];
    intros H; inversion H; eauto.
Qed.


Lemma for_range_app {S} (body : S -> M S) (n m : nat) (s : S) (r : rng) :
  for_range (n + m) body s r =
  (s' <- for_range n body s ;; for_range m body s') r.
Proof.
  revert s r. induction n as [|n IH]; intros s r; [reflexivity|].
  simpl. unfold bind. destruct (body s r) as [e|[s1 r1]]; [reflexivity|].
  apply IH.
Qed.


Lemma getitem_inr {A} (l : list A) i r x r' :
  getitem l i r = inr (x, r') -> nth_error l i = Some x /\ r' = r.
Proof.
  unfold getitem. destruct (nth_error l i); cbv [ret raise]; intros H;
    inversion H; auto.
Qed.

Lemma ret_inr {A} (a b : A) (r r' : rng) : ret a r = inr (b, r') -> a = b /\ r = r'.
Proof. cbv [ret]. intros H. inversion H. auto. Qed.

(** Inversion of a successful run of a sequence of binds. *)
Ltac minv H :=
  lazymatch type of H with
  | bind _ _ _ = inr _ =>
      let a := fresh "a" in
      let r := fresh "r" in
      let H1 := fresh "H" in
      apply bind_inr in H as (a & r & H1 & H); minv H
  | _ => idtac
  end.

Lemma random_sample1_inr {A} (population : list A) r s r' :
  random_sample1 population r = inr (s, r') ->
  exists x, s = [x] /\ In x population.
Proof.
  unfold random_sample1.
  destruct (length population <? 1)%nat; [discriminate|].
  intros H. minv H. apply ret_inr in H as [<- _].
  apply getitem_inr in H1 as [H1 _]. apply nth_error_In in H1. eauto.
Qed.

Lemma random_choices_inr {A} (population : list A) weights r s r' :
  random_choices population weights r = inr (s, r') ->
  exists x, s = [x] /\ In x population.
Proof.
  unfold random_choices.
  destruct (negb _); [discriminate|].
  intros H. minv H. destruct (Qle_bool a 0); [discriminate|].
  minv H. apply ret_inr in H as [<- _].
  apply getitem_inr in H2 as [H2 _]. apply nth_error_In in H2. eauto.
Qed.


Lemma BiasedRandomWalker_step_extends self p q st r st' r' :
  BiasedRandomWalker_step self p q st r = inr (st', r') ->
  exists x, b_walk st' = b_walk st ++ [x].
Proof.
  unfold BiasedRandomWalker_step. intros H. minv H.
  apply ret_inr in H as [<- _]. simpl. eauto.
Qed.





(** ** The corpus driver *)

Lemma mapM_app {A B} (f : A -> M B) (l1 l2 : list A) (r : rng) :
  mapM f (l1 ++ l2) r =
  (ys1 <- mapM f l1 ;; ys2 <- mapM f l2 ;; ret (ys1 ++ ys2)) r.
Proof.
  revert r. induction l1 as [|x l1 IH]; intros r; simpl.
  - unfold bind, ret. destruct (mapM f l2 r) as [e|[ys r1]]; reflexivity.
  - unfold bind at 1 3 4. destruct (f x r) as [e|[y r1]]; [reflexivity|].
    unfold bind at 1. rewrite IH. unfold bind, ret.
    destruct (mapM f l1 r1) as [e|[ys1 r2]]; [reflexivity|].
    destruct (mapM f l2 r2) as [e|[ys2 r3]]; reflexivity.
Qed.




(** [do_walk] reads the class, [walk_length] and [graph], never [walks]. *)
Lemma do_walk_set_walks (self : Walker) (ws : list (list string)) :
  do_walk (set_walks self ws) = do_walk self.
Proof. reflexivity. Qed.

(** The inner loop: [k] walks from one node, appended in call order. *)
Lemma do_walks_inner (n : node) (k : nat) (self : Walker) ws (r : rng) :
  walks self = Some ws ->
  for_range k (do_walks_body n) self r =
  (new <- mapM (do_walk self) (repeat n k) ;;
   ret (set_walks self (ws ++ new))) r.
Proof.
  revert self ws r. induction k as [|k IH]; intros self ws r Hws.
  - simpl. unfold bind, ret. rewrite app_nil_r.
    destruct self as [c L K w g]. simpl in Hws. now subst w.
  - simpl. unfold do_walks_body at 1. unfold bind at 1 2 4 5.
    destruct (do_walk self n r) as [e|[w r1]]; [reflexivity|].
    unfold get_walks. rewrite Hws. cbv beta iota delta [ret bind].
    rewrite (IH _ (ws ++ [w])) by reflexivity.
    change (do_walk (set_walks self (ws ++ [w]))) with (do_walk self).
    unfold bind, ret.
    destruct (mapM (do_walk self) (repeat n k) r1) as [e|[new r2]];
      [reflexivity|].
    unfold set_walks. simpl. now rewrite <- app_assoc.
Qed.

(** The outer loop over the nodes. *)
Lemma do_walks_outer (l : list node) (self : Walker) ws (r : rng) :
  walks self = Some ws ->
  for_each l
    (fun node self =>
       for_range (range_len (walk_number self)) (do_walks_body node) self)
    self r =
  (new <- mapM (do_walk self)
            (flat_map (fun n => repeat n (range_len (walk_number self))) l) ;;
   ret (set_walks self (ws ++ new))) r.
Proof.
  revert self ws r. induction l as [|n l IH]; intros self ws r Hws.
  - simpl. unfold bind, ret. rewrite app_nil_r.
    destruct self as [c L K w g]. simpl in Hws. now subst w.
  - simpl. unfold bind at 1. rewrite (do_walks_inner _ _ _ ws) by exact Hws.
    unfold bind at 2. rewrite mapM_app. unfold bind.
    destruct (mapM (do_walk self) (repeat n _) r) as [e|[new1 r1]];
      [reflexivity|].
    cbv beta iota delta [ret].
    rewrite (IH _ (ws ++ new1)) by reflexivity.
    change (do_walk (set_walks self (ws ++ new1))) with (do_walk self).
    simpl. unfold bind, ret.
    destruct (mapM (do_walk self) (flat_map _ l) r1) as [e|[new2 r2]];
      [reflexivity|].
    unfold set_walks. simpl. now rewrite <- app_assoc.
Qed.


(** ** The transition weights of the biased walker *)

Lemma setitem_mask_map {A} (w : A -> Q) (m : A -> bool) (v : Q) (xs : list A) :
  setitem_mask (map w xs) (map m xs) v =
  map (fun x => if m x then v else w x) xs.
Proof.
  induction xs as [|x xs IH]; [reflexivity|]. simpl. now rewrite IH.
Qed.

Lemma repeat_as_map {A B} (c : B) (xs : list A) :
  repeat c (length xs) = map (fun _ => c) xs.
Proof.
  induction xs as [|x xs IH]; [reflexivity|]. simpl. now rewrite IH.
Qed.



Lemma biased_probability_eq (p q : Q) (cur : list node) (prev : option node)
  (prevn : list node) (r : rng) :
  ~ p == 0 -> ~ q == 0 ->
  biased_probability p q cur prev prevn r =
  inr (map (fun x => if is_common prevn x then 1%Q
                     else if is_previous prev x then (1 / p)%Q
                     else (1 / q)%Q) cur, r).
Proof.
  intros Hp Hq. unfold biased_probability.
  rewrite (py_div_ok _ _ Hq), (py_div_ok _ _ Hp). cbv [lift bind ret].
  rewrite repeat_as_map. unfold np_eq, np_isin.
  change (fun a : node => match prev with
                          | Some y => Z.eqb a y
                          | None => false
                          end) with (is_previous prev).
  change (fun a : node => existsb (Z.eqb a) prevn) with (is_common prevn).
  now rewrite !setitem_mask_map.
Qed.


(** Along a walk, the array kept from the previous step is the neighbour
    list of the previous node. *)
Lemma for_range_inv {S} (Inv : S -> Prop) (body : S -> M S) :
  (forall s r s' r', Inv s -> body s r = inr (s', r') -> Inv s') ->
  forall n s r s' r', Inv s -> for_range n body s r = inr (s', r') -> Inv s'.
Proof.
  intros Hb. induction n as [|n IH]; intros s r s' r' Hs H.
  - apply ret_inr in H as [<- _]. exact Hs.
  - simpl in H. apply bind_inr in H as (s1 & r1 & H1 & H).
    eapply IH; [|exact H]. eapply Hb; [exact Hs|exact H1].
Qed.




(** ** A current node without neighbours *)

Lemma neighbors_sink (g : Graph) (cur : node) (r : rng) :
  lookup cur (adj g) = Some [] -> neighbors g cur r = inr ([], r).
Proof. unfold neighbors. now intros ->. Qed.

(** The three guarded walkers leave the walk as it is. *)
Lemma guarded_steps_on_sink (self : Walker) (g : Graph) (walk : list node)
  (cur : node) (r : rng) :
  graph self = Some g ->
  last_error walk = Some cur ->
  lookup cur (adj g) = Some [] ->
  RandomWalker_step self walk r = inr (walk, r) /\
  MultiRandomWalker_step self walk r = inr (walk, r) /\
  forall hop_rate prev_key,
    MultiRandomWalkerWithHops_step self hop_rate (walk, prev_key) r =
    inr ((walk, prev_key), r).
Proof.
  intros Hg Hlast Hsink.
  unfold RandomWalker_step, MultiRandomWalker_step, MultiRandomWalkerWithHops_step.
  repeat split; intros;
    rewrite (bind_step _ _ _ _ _ (get_graph_ok _ _ _ Hg));
    rewrite (bind_step _ _ _ _ _ (getitem_last_ok _ _ _ Hlast));
    rewrite (bind_step _ _ _ _ _ (neighbors_sink _ _ _ Hsink));
    reflexivity.
Qed.

Lemma biased_step_on_sink (self : Walker) (p q : Q) (g : Graph)
  (st : BiasedState) (cur : node) (r : rng) :
  ~ p == 0 -> ~ q == 0 ->
  graph self = Some g ->
  last_error (b_walk st) = Some cur ->
  lookup cur (adj g) = Some [] ->
  BiasedRandomWalker_step self p q st r = inl empty_choice.
Proof.
  intros Hp Hq Hg Hlast Hsink. unfold BiasedRandomWalker_step.
  rewrite (bind_step _ _ _ _ _ (getitem_last_ok _ _ _ Hlast)).
  rewrite (bind_step _ _ _ _ _ (get_graph_ok _ _ _ Hg)).
  rewrite (bind_step _ _ _ _ _ (neighbors_sink _ _ _ Hsink)).
  rewrite (bind_step _ _ _ _ _ (biased_probability_eq _ _ _ _ _ _ Hp Hq)).
  reflexivity.
Qed.

(** C5. When the current node of the biased walker has no neighbour, the
    weight vector is empty, its sum is zero, and the step does not leave the
    walk as it is: the draw over the empty candidate array raises.  So a
    walk that reaches such a node with at least one step left raises, where
    the three other walkers keep the walk unchanged and go on. *)
Theorem biased_walker_fails_without_neighbours (self : Walker) (p q : Q)
  (g : Graph) (seed cur : node) (j : nat) (st : BiasedState) (r0 r : rng) :
  ~ p == 0 -> ~ q == 0 ->
  cls self = BiasedRandomWalker p q ->
  graph self = Some g ->
  for_range j (BiasedRandomWalker_step self p q) (mkBiased [seed] None []) r0
    = inr (st, r) ->
  last_error (b_walk st) = Some cur ->
  lookup cur (adj g) = Some [] ->
  Z.of_nat j < walk_length self - 1 ->
  (biased_probability p q [] (previous_node st) (previous_node_neighbors st) r
     = inr ([], r) /\
   py_sum [] == 0 /\
   np_divide [] (py_sum []) = []) /\
  BiasedRandomWalker_step self p q st r = inl empty_choice /\
  do_walk self seed r0 = inl empty_choice /\
  (RandomWalker_step self (b_walk st) r = inr (b_walk st, r) /\
   MultiRandomWalker_step self (b_walk st) r = inr (b_walk st, r) /\
   forall hop_rate prev_key,
     MultiRandomWalkerWithHops_step self hop_rate (b_walk st, prev_key) r =
     inr ((b_walk st, prev_key), r)).
Proof.
  intros Hp Hq Hcls Hg Hrun Hlast Hsink Hj.
  pose proof (biased_step_on_sink self p q g st cur r Hp Hq Hg Hlast Hsink)
    as Hstep.
  split.
  { split; [|split; reflexivity].
    now rewrite (biased_probability_eq _ _ _ _ _ _ Hp Hq). }
  split; [exact Hstep|]. split.
  - unfold do_walk. rewrite Hcls. unfold BiasedRandomWalker_do_walk.
    apply bind_inl.
    replace (range_len (walk_length self - 1))
      with (j + Datatypes.S (range_len (walk_length self - 1) - j - 1))%nat
      by (unfold range_len; lia).
    rewrite for_range_app. rewrite (bind_step _ _ _ _ _ Hrun).
    simpl. now apply bind_inl.
  - exact (guarded_steps_on_sink self g (b_walk st) cur r Hg Hlast Hsink).
Qed.

Lemma biased_walker_fails_without_neighbours_witness :
  let self := mkWalker (BiasedRandomWalker 2 (1 # 3)) 4 1 None (Some dead_end) in
  let st := mkBiased [0; 1] (Some 0) [1] in
  for_range 1 (BiasedRandomWalker_step self 2 (1 # 3)) (mkBiased [0] None []) [7]%N
    = inr (st, []) /\
  lookup 1 (adj dead_end) = Some [] /\
  BiasedRandomWalker_step self 2 (1 # 3) st [] = inl empty_choice /\
  do_walk self 0 [7]%N = inl empty_choice /\
  RandomWalker_step self [0; 1] [] = inr ([0; 1], []).
Proof.
  intros self st.
  assert (Hrun : for_range 1 (BiasedRandomWalker_step self 2 (1 # 3))
                   (mkBiased [0] None []) [7]%N = inr (st, []))
    by (vm_compute; reflexivity).
  split; [exact Hrun|]. split; [reflexivity|].
  destruct (biased_walker_fails_without_neighbours self 2 (1 # 3) dead_end 0 1 1
              st [7]%N [])
    as (_ & Hstep & Hwalk & Hrandom & _);
    try reflexivity; try discriminate; try exact Hrun.
  repeat split; assumption.
Defined.

(** An isolated seed under the three guarded walkers, or under any walker
    that has no step to make: the walk is the seed alone. *)
Lemma isolated_seed_walk (self : Walker) (g : Graph) (seed : node) (r : rng) :
  graph self = Some g ->
  lookup seed (adj g) = Some [] ->
  (forall p q, cls self = BiasedRandomWalker p q -> walk_length self <= 1) ->
  do_walk self seed r = inr ([str seed], r).
Proof.
  intros Hg Hsink Hcls.
  assert (Hsteps := fun r1 =>
            guarded_steps_on_sink self g [seed] seed r1 Hg eq_refl Hsink).
  assert (Hloop : forall S (body : S -> M S) s n,
             (forall r, body s r = inr (s, r)) ->
             for_range n body s r = inr (s, r)).
  { intros S body s n Hb. induction n as [|n IH]; [reflexivity|].
    simpl. now rewrite (bind_step _ _ _ _ _ (Hb r)). }
  unfold do_walk. destruct (cls self) as [|p q| |hop_rate] eqn:E.
  - unfold RandomWalker_do_walk.
    rewrite (bind_step _ _ _ [seed] r); [reflexivity|].
    apply Hloop. intros r1. apply Hsteps.
  - unfold BiasedRandomWalker_do_walk.
    specialize (Hcls p q eq_refl).
    replace (range_len (walk_length self - 1)) with O
      by (unfold range_len; lia).
    reflexivity.
  - unfold MultiRandomWalker_do_walk.
    rewrite (bind_step _ _ _ [seed] r); [reflexivity|].
    apply Hloop. intros r1. apply Hsteps.
  - unfold MultiRandomWalkerWithHops_do_walk.
    rewrite (bind_step _ _ _ ([seed], None) r); [reflexivity|].
    apply Hloop. intros r1. apply Hsteps.
Qed.

(** The biased walker started on a node without neighbours, with a step
    to make: the first step raises. *)
Lemma biased_isolated_seed_raises (self : Walker) (p q : Q) (g : Graph)
  (seed : node) (r : rng) :
  ~ p == 0 -> ~ q == 0 ->
  cls self = BiasedRandomWalker p q -> graph self = Some g ->
  lookup seed (adj g) = Some [] -> 2 <= walk_length self ->
  do_walk self seed r = inl empty_choice.
Proof.
  intros Hp Hq Hcls Hg Hsink HL. unfold do_walk. rewrite Hcls.
  unfold BiasedRandomWalker_do_walk. apply bind_inl.
  replace (range_len (walk_length self - 1))
    with (Datatypes.S (range_len (walk_length self - 2)))
    by (unfold range_len; lia).
  cbn [for_range]. apply bind_inl.
  now apply (biased_step_on_sink self p q g _ seed).
Qed.

(** C4. The scenario of the isolated node 5 with [walk_length = 4], run
    with a biased walker ([p = q = 1]): whatever the draws, no walk comes
    back, the first step raises [ValueError]; the three other walkers
    return the walk of the seed alone. *)
Theorem biased_walker_isolated_seed_raises (r : rng) :
  let biased := mkWalker (BiasedRandomWalker 1 1) 4 1 None (Some two_isolated_nodes) in
  let guarded := (fun c => mkWalker c 4 1 None (Some two_isolated_nodes)) in
  do_walk biased 5 r = inl empty_choice /\
  do_walk (guarded RandomWalker) 5 r = inr ([str 5], r) /\
  do_walk (guarded MultiRandomWalker) 5 r = inr ([str 5], r) /\
  do_walk (guarded (MultiRandomWalkerWithHops 1)) 5 r = inr ([str 5], r).
Proof.
  intros biased guarded. split.
  - apply (biased_isolated_seed_raises biased 1 1 two_isolated_nodes);
      try reflexivity; try discriminate.
  - repeat split;
      apply (isolated_seed_walk _ two_isolated_nodes); try reflexivity;
      intros p q H; discriminate.
Qed.

(** ** Sums, running sums and the binary search *)

Local Open Scope Q_scope.

Lemma fold_left_Qplus (l : list Q) (a : Q) :
  fold_left Qplus l a == a + py_sum l.
Proof.
  unfold py_sum. revert a. induction l as [|x l IH]; intros a; simpl.
  - ring.
  - rewrite (IH (a + x)), (IH (0 + x)). ring.
Qed.

Lemma py_sum_cons (x : Q) (l : list Q) : py_sum (x :: l) == x + py_sum l.
Proof. unfold py_sum at 1. simpl. rewrite fold_left_Qplus. ring. Qed.

Lemma py_sum_app (l1 l2 : list Q) : py_sum (l1 ++ l2) == py_sum l1 + py_sum l2.
Proof.
  induction l1 as [|x l1 IH]; simpl.
  - unfold py_sum at 2. simpl. ring.
  - rewrite !py_sum_cons, IH. ring.
Qed.

Lemma py_sum_Forall2 (l l' : list Q) : Forall2 Qeq l l' -> py_sum l == py_sum l'.
Proof.
  induction 1 as [|x x' l l' Hx Hl IH]; [reflexivity|].
  now rewrite !py_sum_cons, Hx, IH.
Qed.












Lemma Qlt_bool_comp (x x' y y' : Q) :
  x == x' -> y == y' -> Qlt_bool x y = Qlt_bool x' y'.
Proof. intros Hx Hy. unfold Qlt_bool. now rewrite Hx, Hy. Qed.



Lemma Forall2_nth_Qeq (a a' : list Q) (k : nat) :
  Forall2 Qeq a a' -> nth k a 0 == nth k a' 0.
Proof.
  intros H. revert k. induction H as [|x x' a a' Hx Ha IH]; intros k.
  - destruct k; reflexivity.
  - destruct k as [|k]; [exact Hx|apply IH].
Qed.

Lemma bisect_loop_comp (fuel : nat) (a a' : list Q) (x x' : Q) (lo hi : nat) :
  Forall2 Qeq a a' -> x == x' ->
  bisect_loop fuel a x lo hi = bisect_loop fuel a' x' lo hi.
Proof.
  intros Ha Hx. revert lo hi. induction fuel as [|fuel IH]; intros lo hi;
    [reflexivity|].
  cbn [bisect_loop]. destruct (lo <? hi)%nat; [|reflexivity].
  rewrite (Qlt_bool_comp x x' _ (nth ((lo + hi) / 2) a' 0) Hx
             (Forall2_nth_Qeq a a' _ Ha)).
  now rewrite !IH.
Qed.

Lemma accumulate_from_comp (acc acc' : Q) (ws ws' : list Q) :
  acc == acc' -> Forall2 Qeq ws ws' ->
  Forall2 Qeq (accumulate_from acc ws) (accumulate_from acc' ws').
Proof.
  intros Hacc H. revert acc acc' Hacc.
  induction H as [|w w' ws ws' Hw Hws IH]; intros acc acc' Hacc; simpl;
    constructor.
  - now rewrite Hacc, Hw.
  - apply IH. now rewrite Hacc, Hw.
Qed.

Lemma accumulate_comp (ws ws' : list Q) :
  Forall2 Qeq ws ws' -> Forall2 Qeq (accumulate ws) (accumulate ws').
Proof.
  intros H. destruct H as [|w w' ws ws' Hw Hws]; simpl; constructor;
    [exact Hw|now apply accumulate_from_comp].
Qed.

Lemma Forall2_length_eq {A B} (R : A -> B -> Prop) (l : list A) (l' : list B) :
  Forall2 R l l' -> length l = length l'.
Proof. induction 1; simpl; congruence. Qed.



Lemma all_finite_comp (p p' : list npfloat) :
  Forall2 npfloat_eq p p' ->
  match all_finite p, all_finite p' with
  | Some ps, Some ps' => Forall2 Qeq ps ps'
  | None, None => True
  | _, _ => False
  end.
Proof.
  induction 1 as [|x x' p p' Hx Hp IH]; simpl; [constructor|].
  destruct x as [a|], x' as [a'|]; simpl in Hx; try contradiction; [|exact I].
  destruct (all_finite p), (all_finite p'); simpl; try contradiction;
    [now constructor|exact I].
Qed.

Lemma existsb_negative_comp (ps ps' : list Q) :
  Forall2 Qeq ps ps' ->
  existsb (fun x => Qlt_bool x 0) ps = existsb (fun x => Qlt_bool x 0) ps'.
Proof.
  induction 1 as [|x x' ps ps' Hx Hp IH]; [reflexivity|].
  simpl. now rewrite IH, (Qlt_bool_comp x x' 0 0 Hx (Qeq_refl 0)).
Qed.

(** [np.random.choice] only compares and sums probabilities. *)
Lemma np_random_choice_comp (a : list node) (p p' : list npfloat) (r : rng) :
  Forall2 npfloat_eq p p' ->
  np_random_choice a p r = np_random_choice a p' r.
Proof.
  intros H. unfold np_random_choice. destruct a as [|x a]; [reflexivity|].
  rewrite <- (Forall2_length_eq _ _ _ H).
  destruct (negb _); [reflexivity|].
  pose proof (all_finite_comp _ _ H) as Hfin.
  destruct (all_finite p) as [ps|], (all_finite p') as [ps'|];
    try contradiction; [|reflexivity].
  rewrite (existsb_negative_comp _ _ Hfin).
  destruct (existsb _ ps'); [reflexivity|].
  rewrite (Qeqb_comp _ _ (py_sum_Forall2 _ _ Hfin) 1 1 (Qeq_refl 1)).
  destruct (negb _); [reflexivity|].
  pose proof (accumulate_comp _ _ Hfin) as Hacc.
  unfold bind, random. cbv beta iota.
  rewrite <- (Forall2_length_eq _ _ _ Hacc). unfold bisect.
  now rewrite (bisect_loop_comp _ _ (accumulate ps') _ _ _ _ Hacc (Qeq_refl _)).
Qed.

Lemma inject_Z_of_nat_pos (n : nat) : (0 < n)%nat -> 0 < inject_Z (Z.of_nat n).
Proof.
  intros H. change 0 with (inject_Z 0). rewrite <- Zlt_Qlt. lia.
Qed.


Lemma Forall2_of_constant (c : Q) (l l' : list npfloat) :
  length l = length l' ->
  Forall (fun x => npfloat_eq x (Some c)) l ->
  Forall (fun x => npfloat_eq x (Some c)) l' ->
  Forall2 npfloat_eq l l'.
Proof.
  intros Hlen Hl. revert l' Hlen.
  induction Hl as [|x l Hx Hl IH]; intros l' Hlen Hl';
    destruct l' as [|x' l']; try discriminate; constructor.
  - inversion Hl' as [|? ? Hx' _]; subst.
    destruct x as [a|], x' as [a'|]; simpl in *; try contradiction.
    now rewrite Hx, Hx'.
  - apply IH; [simpl in Hlen; congruence|now inversion Hl'].
Qed.




(** ** The candidate lists of the multigraph walkers *)


Lemma lookup_key {V} (k : Z) (d : list (Z * V)) :
  In k (map fst d) -> exists v, lookup k d = Some v.
Proof.
  induction d as [|[k' v'] d IH]; [contradiction|]. simpl.
  destruct (Z.eqb_spec k k') as [->|Hne]; [eauto|].
  intros [H|H]; [congruence|now apply IH].
Qed.





Lemma getitem2_ok (g : Graph) (cur v : node) (d : adjdict) (r : rng) :
  lookup cur (adj g) = Some d -> In v (map fst d) ->
  getitem2 g cur v r = inr (keydict_at d v, r).
Proof.
  intros Hd Hv. unfold getitem2, keydict_at. rewrite Hd.
  destruct (lookup_key v d Hv) as (kd & ->). reflexivity.
Qed.











(** ** The hop walker at [hop_rate = 1] *)












(** ** The law of a weighted draw *)






(** ** The selection probability of a neighbour *)








(** ** Walks that return *)





















(** ** The walks and the corpus *)






(** The triangle is walkable for every class with positive parameters. *)
Lemma triangle_walkable (c : Strategy) :
  match c with
  | BiasedRandomWalker p q => 0 < p /\ 0 < q
  | MultiRandomWalkerWithHops hop_rate => 0 < hop_rate
  | _ => True
  end ->
  walkable c triangle.
Proof.
  intros Hc.
  assert (Hclosed : closed triangle).
  { intros u d v Hin Hv. simpl in Hin.
    destruct Hin as [[= <- <-]|[[= <- <-]|[[= <- <-]|[]]]];
      simpl in Hv |- *; intuition. }
  assert (Hpos : positive triangle).
  { intros u d v kd Hin Hv. simpl in Hin.
    assert (Hkd : kd = unit_edge).
    { destruct Hin as [[= <- <-]|[[= <- <-]|[[= <- <-]|[]]]];
        simpl in Hv; destruct Hv as [[= _ <-]|[[= _ <-]|[]]]; reflexivity. }
    subst kd. split; [discriminate|].
    constructor; [|constructor]. exists 1. split; reflexivity. }
  assert (Hns : no_sink triangle).
  { intros u d Hin. simpl in Hin.
    destruct Hin as [[= <- <-]|[[= <- <-]|[[= <- <-]|[]]]]; discriminate. }
  split; [exact Hclosed|].
  destruct c as [|p q| |hop_rate]; [exact I| |exact Hpos|now split].
  destruct Hc as [Hp Hq]. now repeat split.
Qed.

(** * Further properties of the walkers *)

(** ** Walks are paths of the graph *)






(** The candidates of the hop walker are edges out of the current node. *)
Lemma hop_inner_names (hop_rate : Q) (prev_key : option key) (v : node)
  (kd : keydict) acc acc' (r r' : rng) :
  for_each kd (hop_edge hop_rate prev_key v) acc r = inr (acc', r') ->
  forall x k, In (x, k) (fst acc') ->
              In (x, k) (fst acc) \/ (x = v /\ In k (map fst kd)).
Proof.
  revert acc r. induction kd as [|[k0 data] kd IH]; intros acc r H x k Hx.
  - apply ret_inr in H as [<- _]. now left.
  - cbn [for_each] in H. apply bind_inr in H as (acc1 & r1 & H1 & H).
    destruct (IH _ _ H x k Hx) as [Hin|[Hv Hk]];
      [|right; split; [exact Hv|now right]].
    destruct acc as [ns ws]. unfold hop_edge in H1. minv H1.
    apply ret_inr in H1 as [<- _]. simpl in Hin.
    apply in_app_or in Hin as [Hin|[[= <- <-]|[]]]; [now left|].
    right. split; [reflexivity|now left].
Qed.

Lemma getitem2_inr (g : Graph) (u v : node) (kd : keydict) (r r' : rng) :
  getitem2 g u v r = inr (kd, r') ->
  exists d, lookup u (adj g) = Some d /\ lookup v d = Some kd /\ r' = r.
Proof.
  unfold getitem2. destruct (lookup u (adj g)) as [d|]; [|discriminate].
  destruct (lookup v d) as [kd'|] eqn:E; [|discriminate].
  intros H. apply ret_inr in H as [<- <-]. now exists d.
Qed.

Lemma hop_candidates_names (g : Graph) (hop_rate : Q) (prev_key : option key)
  (cur : node) (l : list node) (ns : list (node * key)) (ws : list Q)
  (r r' : rng) :
  hop_candidates g hop_rate prev_key cur l r = inr ((ns, ws), r') ->
  forall x k,
    In (x, k) ns ->
    In x l /\
    exists d kd, lookup cur (adj g) = Some d /\ lookup x d = Some kd /\
                 In k (map fst kd).
Proof.
  unfold hop_candidates.
  enough (Hgen : forall acc acc' r r',
             for_each l
               (fun neigh acc =>
                  kd <- getitem2 g cur neigh ;;
                  for_each kd (hop_edge hop_rate prev_key neigh) acc) acc r
             = inr (acc', r') ->
             forall x k,
               In (x, k) (fst acc') ->
               In (x, k) (fst acc) \/
               (In x l /\
                exists d kd, lookup cur (adj g) = Some d /\ lookup x d = Some kd /\
                             In k (map fst kd))).
  { intros H x k Hx. destruct (Hgen _ _ _ _ H x k Hx) as [[]|Hin]. exact Hin. }
  induction l as [|v l IH]; intros acc acc' r0 r0' H x k Hx.
  - apply ret_inr in H as [<- _]. now left.
  - cbn [for_each] in H. apply bind_inr in H as (acc1 & r1 & H1 & H).
    destruct (IH _ _ _ _ H x k Hx) as [Hin|[Hin Hk]];
      [|right; split; [now right|exact Hk]].
    apply bind_inr in H1 as (kd & r2 & Hkd & H1).
    destruct (hop_inner_names _ _ _ _ _ _ _ _ H1 x k Hin) as [Hacc|[Hv Hk]];
      [now left|].
    subst x. right. split; [now left|].
    apply getitem2_inr in Hkd as (d & Hd & Hv & _). now exists d, kd.
Qed.










(** ** The length of a walk *)

Lemma for_range_count {S} (P : nat -> S -> Prop) (body : S -> M S) :
  (forall k s r s' r', P k s -> body s r = inr (s', r') -> P (Datatypes.S k) s') ->
  forall n k s r s' r',
    P k s -> for_range n body s r = inr (s', r') -> P (k + n)%nat s'.
Proof.
  intros Hb. induction n as [|n IH]; intros k s r s' r' Hs H.
  - apply ret_inr in H as [<- _]. now rewrite Nat.add_0_r.
  - simpl in H. apply bind_inr in H as (s1 & r1 & H1 & H).
    rewrite <- Nat.add_succ_comm. eapply IH; [|exact H].
    eapply Hb; [exact Hs|exact H1].
Qed.

Lemma walk_length_max (L : Z) : Z.of_nat (1 + range_len (L - 1)) = Z.max 1 L.
Proof. unfold range_len. lia. Qed.

(** X2. A walk the biased walker returns always has exactly [walk_length]
    elements (one element when [walk_length] is below 1): its step never
    leaves the walk as it is. *)
Theorem biased_walk_full_length (self : Walker) (p q : Q) (seed : node)
  (r r' : rng) (walk : list string) :
  cls self = BiasedRandomWalker p q ->
  do_walk self seed r = inr (walk, r') ->
  Z.of_nat (length walk) = Z.max 1 (walk_length self).
Proof.
  intros Hcls H. unfold do_walk in H. rewrite Hcls in H.
  unfold BiasedRandomWalker_do_walk in H.
  apply bind_inr in H as (st & r1 & Hloop & H). apply ret_inr in H as [<- _].
  rewrite length_map, <- walk_length_max. f_equal.
  apply (for_range_count (fun k st => length (b_walk st) = (1 + k)%nat)
           (BiasedRandomWalker_step self p q) ) with (k := 0%nat) in Hloop;
    [exact Hloop| |reflexivity].
  intros k s r0 s' r0' Hs Hstep.
  apply BiasedRandomWalker_step_extends in Hstep as (x & ->).
  rewrite length_app, Hs. simpl. lia.
Qed.

Lemma biased_walk_full_length_witness :
  let self := mkWalker (BiasedRandomWalker 2 (1 # 3)) 4%Z 1%Z None (Some triangle) in
  let r := [9007199254740991; 4503599627370496; 3; 4; 5]%N in
  cls self = BiasedRandomWalker 2 (1 # 3) /\
  do_walk self 0%Z r = inr (["0"; "2"; "1"; "0"]%string, [4; 5]%N) /\
  Z.of_nat (length ["0"; "2"; "1"; "0"]%string) = Z.max 1 (walk_length self).
Proof.
  intros self r.
  assert (Hrun : do_walk self 0%Z r = inr (["0"; "2"; "1"; "0"]%string, [4; 5]%N))
    by (vm_compute; reflexivity).
  split; [reflexivity|]. split; [exact Hrun|].
  exact (biased_walk_full_length self 2 (1 # 3) 0%Z r [4; 5]%N _ eq_refl Hrun).
Defined.

(** The first three calls of a step, with the adjacency they read. *)
Lemma step_prefix_adj {A} (self : Walker) (g : Graph) (walk : list node)
  (k : Graph -> node -> list node -> M A) (r : rng) (a : A) (r' : rng) :
  graph self = Some g ->
  (g0 <- get_graph self ;;
   cur <- getitem_last walk ;;
   nebs <- neighbors g0 cur ;;
   k g0 cur nebs) r = inr (a, r') ->
  exists cur d,
    last_error walk = Some cur /\ lookup cur (adj g) = Some d /\
    k g cur (map fst d) r = inr (a, r').
Proof.
  intros Hg H.
  apply bind_inr in H as (g0 & r1 & Hg0 & H).
  apply get_graph_inr in Hg0 as [Hg' ->]. rewrite Hg in Hg'. injection Hg' as <-.
  apply bind_inr in H as (cur & r2 & Hlast & H).
  apply getitem_last_inr in Hlast as [Hlast ->].
  apply bind_inr in H as (nebs & r3 & Hn & H).
  apply neighbors_inr in Hn as (d & Hd & -> & ->).
  now exists cur, d.
Qed.

Lemma map_fst_nil {A B} (d : list (A * B)) :
  (0 <? length (map fst d))%nat = false -> d = [].
Proof. destruct d; [reflexivity|discriminate]. Qed.

(** A guarded step appends a node, or changes nothing on a node without
    neighbours. *)
Lemma guarded_step_cases (self : Walker) (g : Graph) (walk : list node) :
  graph self = Some g ->
  (forall r walk' r',
      RandomWalker_step self walk r = inr (walk', r') ->
      (exists x, walk' = walk ++ [x]) \/ (walk' = walk /\ stuck g walk)) /\
  (forall r walk' r',
      MultiRandomWalker_step self walk r = inr (walk', r') ->
      (exists x, walk' = walk ++ [x]) \/ (walk' = walk /\ stuck g walk)) /\
  (forall hop_rate prev_key r st' r',
      MultiRandomWalkerWithHops_step self hop_rate (walk, prev_key) r
        = inr (st', r') ->
      (exists x, fst st' = walk ++ [x]) \/ (fst st' = walk /\ stuck g walk)).
Proof.
  intros Hg. split; [|split].
  - intros r walk' r' H. unfold RandomWalker_step in H.
    apply (step_prefix_adj self g walk (fun g cur nebs => _)) in H
      as (cur & d & Hlast & Hd & H); [|exact Hg].
    destruct (0 <? _)%nat eqn:E.
    + apply bind_inr in H as (s & r1 & Hs & H). apply ret_inr in H as [<- _].
      apply random_sample1_inr in Hs as (x & -> & _). left. now exists x.
    + apply ret_inr in H as [<- _]. apply map_fst_nil in E. subst d.
      right. split; [reflexivity|now exists cur].
  - intros r walk' r' H. unfold MultiRandomWalker_step in H.
    apply (step_prefix_adj self g walk (fun g cur nebs => _)) in H
      as (cur & d & Hlast & Hd & H); [|exact Hg].
    destruct (0 <? _)%nat eqn:E.
    + apply bind_inr in H as ([ns ws] & r1 & _ & H).
      apply bind_inr in H as (s & r2 & Hs & H). apply ret_inr in H as [<- _].
      apply random_choices_inr in Hs as (x & -> & _). left. now exists x.
    + apply ret_inr in H as [<- _]. apply map_fst_nil in E. subst d.
      right. split; [reflexivity|now exists cur].
  - intros hop_rate prev_key r st' r' H.
    unfold MultiRandomWalkerWithHops_step in H.
    apply (step_prefix_adj self g walk (fun g cur nebs => _)) in H
      as (cur & d & Hlast & Hd & H); [|exact Hg].
    destruct (0 <? _)%nat eqn:E.
    + apply bind_inr in H as ([ns ws] & r1 & _ & H).
      apply bind_inr in H as (s & r2 & _ & H).
      apply bind_inr in H as ([x k] & r3 & _ & H).
      apply ret_inr in H as [<- _]. left. now exists x.
    + apply ret_inr in H as [<- _]. apply map_fst_nil in E. subst d.
      right. split; [reflexivity|now exists cur].
Qed.

Lemma full_or_stuck_step (g : Graph) (k : nat) (walk walk' : list node) :
  full_or_stuck g k walk ->
  (stuck g walk -> walk' = walk) ->
  (exists x, walk' = walk ++ [x]) \/ (walk' = walk /\ stuck g walk) ->
  full_or_stuck g (Datatypes.S k) walk'.
Proof.
  intros [Hlen|Hstuck] Hkeep Hcases.
  - destruct Hcases as [(x & ->)|[-> Hs]]; [left|now right].
    rewrite length_app, Hlen. simpl. lia.
  - rewrite (Hkeep Hstuck). now right.
Qed.

(** X3. A walk returned by one of the three guarded walkers has exactly
    [walk_length] elements (one when [walk_length] is below 1), unless it
    stopped on a node without neighbours: that is the only way a walk
    comes back short. *)
Theorem guarded_walk_short_only_when_stuck (self : Walker) (g : Graph)
  (seed : node) (r r' : rng) (walk : list string) :
  (forall p q, cls self <> BiasedRandomWalker p q) ->
  graph self = Some g ->
  do_walk self seed r = inr (walk, r') ->
  exists path,
    walk = map str path /\
    (Z.of_nat (length walk) = Z.max 1 (walk_length self) \/ stuck g path).
Proof.
  intros Hcls Hg H.
  assert (Hend : forall path,
             full_or_stuck g (0 + range_len (walk_length self - 1)) path ->
             Z.of_nat (length (map str path)) = Z.max 1 (walk_length self) \/
             stuck g path).
  { intros path [Hlen|Hs]; [left|now right].
    now rewrite length_map, Hlen, <- walk_length_max. }
  assert (Hinit : full_or_stuck g 0 [seed]) by (now left).
  assert (Hkeep := fun walk cur r Hlast Hsink =>
            guarded_steps_on_sink self g walk cur r Hg Hlast Hsink).
  unfold do_walk in H. destruct (cls self) as [|p q| |hop_rate] eqn:E.
  - unfold RandomWalker_do_walk in H.
    apply bind_inr in H as (path & r1 & Hloop & H). apply ret_inr in H as [<- _].
    exists path. split; [reflexivity|]. apply Hend.
    apply (for_range_count (full_or_stuck g) (RandomWalker_step self))
      with (k := 0%nat) in Hloop; [exact Hloop| |exact Hinit].
    intros k s r0 s' r0' Hs Hstep. apply (full_or_stuck_step g k s s' Hs).
    + intros (cur & Hlast & Hsink).
      destruct (Hkeep s cur r0 Hlast Hsink) as (Hr & _). congruence.
    + now apply (guarded_step_cases self g s Hg) in Hstep.
  - exfalso. exact (Hcls p q eq_refl).
  - unfold MultiRandomWalker_do_walk in H.
    apply bind_inr in H as (path & r1 & Hloop & H). apply ret_inr in H as [<- _].
    exists path. split; [reflexivity|]. apply Hend.
    apply (for_range_count (full_or_stuck g) (MultiRandomWalker_step self))
      with (k := 0%nat) in Hloop; [exact Hloop| |exact Hinit].
    intros k s r0 s' r0' Hs Hstep. apply (full_or_stuck_step g k s s' Hs).
    + intros (cur & Hlast & Hsink).
      destruct (Hkeep s cur r0 Hlast Hsink) as (_ & Hm & _). congruence.
    + now apply (guarded_step_cases self g s Hg) in Hstep.
  - unfold MultiRandomWalkerWithHops_do_walk in H.
    apply bind_inr in H as ([path pk] & r1 & Hloop & H).
    apply ret_inr in H as [<- _].
    exists path. split; [reflexivity|]. apply Hend.
    apply (for_range_count (fun k st => full_or_stuck g k (fst st))
             (MultiRandomWalkerWithHops_step self hop_rate))
      with (k := 0%nat) in Hloop; [exact Hloop| |exact Hinit].
    intros k [s pk0] r0 [s' pk'] r0' Hs Hstep.
    apply (full_or_stuck_step g k s s' Hs).
    + intros (cur & Hlast & Hsink).
      destruct (Hkeep s cur r0 Hlast Hsink) as (_ & _ & Hh).
      rewrite Hh in Hstep. congruence.
    + destruct (guarded_step_cases self g s Hg) as (_ & _ & Hh).
      exact (Hh hop_rate pk0 r0 (s', pk') r0' Hstep).
Qed.

Lemma guarded_walk_short_only_when_stuck_witness :
  let self := mkWalker RandomWalker 4%Z 1%Z None (Some dead_end) in
  (forall p q, cls self <> BiasedRandomWalker p q) /\
  do_walk self 0%Z [7]%N = inr (["0"; "1"]%string, []) /\
  exists path,
    ["0"; "1"]%string = map str path /\
    (Z.of_nat (length ["0"; "1"]%string) = Z.max 1 (walk_length self) \/
     stuck dead_end path).
Proof.
  intros self.
  assert (Hcls : forall p q, cls self <> BiasedRandomWalker p q)
    by (intros p q; discriminate).
  assert (Hrun : do_walk self 0%Z [7]%N = inr (["0"; "1"]%string, []))
    by (vm_compute; reflexivity).
  split; [exact Hcls|]. split; [exact Hrun|].
  exact (guarded_walk_short_only_when_stuck self dead_end 0%Z [7]%N [] _
           Hcls eq_refl Hrun).
Defined.

(** ** Walks on a walker without a graph, or from a foreign seed *)

Lemma do_walk_no_step (self : Walker) (seed : node) (r : rng) :
  (walk_length self <= 1)%Z -> do_walk self seed r = inr ([str seed], r).
Proof.
  intros HL. unfold do_walk, RandomWalker_do_walk, BiasedRandomWalker_do_walk,
    MultiRandomWalker_do_walk, MultiRandomWalkerWithHops_do_walk.
  replace (range_len (walk_length self - 1)) with O by (unfold range_len; lia).
  now destruct (cls self).
Qed.

(** The first step decides when it raises. *)
Lemma do_walk_first_step_raises (self : Walker) (seed : node) (r : rng) (e : exn) :
  (2 <= walk_length self)%Z ->
  RandomWalker_step self [seed] r = inl e ->
  (forall p q, BiasedRandomWalker_step self p q (mkBiased [seed] None []) r = inl e) ->
  MultiRandomWalker_step self [seed] r = inl e ->
  (forall hop_rate,
      MultiRandomWalkerWithHops_step self hop_rate ([seed], None) r = inl e) ->
  do_walk self seed r = inl e.
Proof.
  intros HL Hr Hb Hm Hh.
  unfold do_walk, RandomWalker_do_walk, BiasedRandomWalker_do_walk,
    MultiRandomWalker_do_walk, MultiRandomWalkerWithHops_do_walk.
  replace (range_len (walk_length self - 1))
    with (Datatypes.S (range_len (walk_length self - 2)))
    by (unfold range_len; lia).
  destruct (cls self) as [|p q| |hop_rate]; apply bind_inl; cbn [for_range];
    apply bind_inl; auto.
Qed.

(** X4. [do_walk] on a walker that [do_walks] never bound to a graph: with
    [walk_length] at least 2 the first step reads the missing [graph]
    attribute and raises [AttributeError], whatever the class; with a
    smaller [walk_length] no step is made and the walk is the seed alone. *)
Theorem do_walk_unbound (self : Walker) (seed : node) (r : rng) :
  graph self = None ->
  do_walk self seed r =
  if (2 <=? walk_length self)%Z then inl AttributeError
  else inr ([str seed], r).
Proof.
  intros Hg. destruct (2 <=? walk_length self)%Z eqn:E.
  - apply Z.leb_le in E. apply do_walk_first_step_raises; [exact E| | | |].
    + unfold RandomWalker_step, get_graph. now rewrite Hg.
    + intros p q. unfold BiasedRandomWalker_step, get_graph. now rewrite Hg.
    + unfold MultiRandomWalker_step, get_graph. now rewrite Hg.
    + intros h. unfold MultiRandomWalkerWithHops_step, get_graph. now rewrite Hg.
  - apply Z.leb_gt in E. apply do_walk_no_step. lia.
Qed.

Lemma do_walk_unbound_witness :
  graph (mkWalker (BiasedRandomWalker 2 (1 # 3)) 3%Z 1%Z None None) = None /\
  do_walk (mkWalker (BiasedRandomWalker 2 (1 # 3)) 3%Z 1%Z None None) 0%Z [7]%N
    = inl AttributeError.
Proof.
  split; [reflexivity|].
  exact (do_walk_unbound
           (mkWalker (BiasedRandomWalker 2 (1 # 3)) 3%Z 1%Z None None) 0%Z [7]%N
           eq_refl).
Defined.

(** X5. [do_walk] from a seed that is not a node of the bound graph: with
    [walk_length] at least 2 the first step asks the graph for its
    neighbours and raises [NetworkXError], whatever the class; with a
    smaller [walk_length] the graph is never asked and the walk is the seed
    alone. *)
Theorem do_walk_foreign_seed (self : Walker) (g : Graph) (seed : node) (r : rng) :
  graph self = Some g -> lookup seed (adj g) = None ->
  do_walk self seed r =
  if (2 <=? walk_length self)%Z then inl NetworkXError
  else inr ([str seed], r).
Proof.
  intros Hg Hseed.
  assert (Hn : forall r0, neighbors g seed r0 = inl NetworkXError).
  { intros r0. unfold neighbors. now rewrite Hseed. }
  destruct (2 <=? walk_length self)%Z eqn:E.
  - apply Z.leb_le in E. apply do_walk_first_step_raises; [exact E| | | |].
    + unfold RandomWalker_step.
      rewrite (bind_step _ _ _ _ _ (get_graph_ok _ _ _ Hg)).
      rewrite (bind_step _ _ _ seed r) by reflexivity. now apply bind_inl.
    + intros p q. unfold BiasedRandomWalker_step.
      rewrite (bind_step _ _ _ seed r) by reflexivity.
      rewrite (bind_step _ _ _ _ _ (get_graph_ok _ _ _ Hg)). now apply bind_inl.
    + unfold MultiRandomWalker_step.
      rewrite (bind_step _ _ _ _ _ (get_graph_ok _ _ _ Hg)).
      rewrite (bind_step _ _ _ seed r) by reflexivity. now apply bind_inl.
    + intros h. unfold MultiRandomWalkerWithHops_step.
      rewrite (bind_step _ _ _ _ _ (get_graph_ok _ _ _ Hg)).
      rewrite (bind_step _ _ _ seed r) by reflexivity. now apply bind_inl.
  - apply Z.leb_gt in E. apply do_walk_no_step. lia.
Qed.

Lemma do_walk_foreign_seed_witness :
  let self := mkWalker MultiRandomWalker 3%Z 1%Z None (Some triangle) in
  graph self = Some triangle /\ lookup 7%Z (adj triangle) = None /\
  do_walk self 7%Z [1; 2]%N = inl NetworkXError.
Proof.
  intros self. split; [reflexivity|]. split; [reflexivity|].
  exact (do_walk_foreign_seed self triangle 7%Z [1; 2]%N eq_refl eq_refl).
Defined.

(** ** Edges without a weight *)

Lemma weighted_false (kd : keydict) :
  weighted kd = false -> exists e, In e kd /\ weight (snd e) = None.
Proof.
  unfold weighted. induction kd as [|e kd IH]; [discriminate|].
  simpl. destruct (weight (snd e)) eqn:E.
  - intros H. destruct (IH H) as (e' & He' & Hw). exists e'. split; [now right|exact Hw].
  - intros _. exists e. split; [now left|exact E].
Qed.

(** The innermost loops raise nothing but [KeyError] and draw nothing. *)
Lemma multi_inner_cases (v : node) (datas : list EdgeData) acc (r : rng) :
  for_each datas (multi_edge v) acc r = inl KeyError \/
  exists acc', for_each datas (multi_edge v) acc r = inr (acc', r).
Proof.
  revert acc. induction datas as [|data datas IH]; intros [ns ws].
  - right. now exists (ns, ws).
  - cbn [for_each]. unfold bind, multi_edge at 1 3, getweight.
    destruct (weight data) as [w|]; [|now left]. apply IH.
Qed.

Lemma multi_inner_keyerror (v : node) (datas : list EdgeData) acc (r : rng) :
  (exists data, In data datas /\ weight data = None) ->
  for_each datas (multi_edge v) acc r = inl KeyError.
Proof.
  revert acc. induction datas as [|data datas IH]; intros [ns ws] (bad & Hin & Hbad).
  - contradiction.
  - cbn [for_each]. unfold bind, multi_edge at 1, getweight.
    destruct (weight data) as [w|] eqn:E; [|reflexivity].
    apply IH. exists bad. split; [|exact Hbad].
    destruct Hin as [->|Hin]; [congruence|exact Hin].
Qed.

Lemma hop_inner_cases (hop_rate : Q) (prev_key : option key) (v : node)
  (kd : keydict) acc (r : rng) :
  for_each kd (hop_edge hop_rate prev_key v) acc r = inl KeyError \/
  exists acc', for_each kd (hop_edge hop_rate prev_key v) acc r = inr (acc', r).
Proof.
  revert acc. induction kd as [|[k data] kd IH]; intros [ns ws].
  - right. now exists (ns, ws).
  - cbn [for_each]. unfold bind, hop_edge at 1 3, getweight.
    destruct (weight data) as [w|]; [|now left]. apply IH.
Qed.

Lemma hop_inner_keyerror (hop_rate : Q) (prev_key : option key) (v : node)
  (kd : keydict) acc (r : rng) :
  (exists e, In e kd /\ weight (snd e) = None) ->
  for_each kd (hop_edge hop_rate prev_key v) acc r = inl KeyError.
Proof.
  revert acc. induction kd as [|[k data] kd IH]; intros [ns ws] (bad & Hin & Hbad).
  - contradiction.
  - cbn [for_each]. unfold bind, hop_edge at 1, getweight.
    destruct (weight data) as [w|] eqn:E; [|reflexivity].
    apply IH. exists bad. split; [|exact Hbad].
    destruct Hin as [<-|Hin]; [simpl in Hbad; congruence|exact Hin].
Qed.

(** A loop over the unique neighbours whose body reads [graph[cur][v]] and
    then raises nothing but [KeyError], and does raise it for one [v]. *)
Lemma outer_keyerror {S} (g : Graph) (cur : node) (d : adjdict)
  (inner : node -> keydict -> S -> M S) (l : list node) (v : node) acc (r : rng) :
  lookup cur (adj g) = Some d -> incl l (map fst d) ->
  (forall x acc r, inner x (keydict_at d x) acc r = inl KeyError \/
                   exists acc', inner x (keydict_at d x) acc r = inr (acc', r)) ->
  In v l ->
  (forall acc r, inner v (keydict_at d v) acc r = inl KeyError) ->
  for_each l (fun neigh acc => kd <- getitem2 g cur neigh ;; inner neigh kd acc)
    acc r = inl KeyError.
Proof.
  intros Hd Hl Hcases Hv Hbad. revert acc.
  induction l as [|x l IH]; intros acc; [contradiction|].
  cbn [for_each].
  assert (Hx : In x (map fst d)) by (apply Hl; now left).
  unfold bind at 1.
  rewrite (bind_step _ _ _ _ _ (getitem2_ok g cur x d r Hd Hx)).
  destruct (Hcases x acc r) as [E|(acc' & E)]; rewrite E; [reflexivity|].
  destruct Hv as [->|Hv].
  - rewrite (Hbad acc r) in E. discriminate.
  - apply IH; [intros y Hy; apply Hl; now right|exact Hv].
Qed.

Lemma candidates_keyerror (g : Graph) (cur : node) (d : adjdict) (v : node)
  (r : rng) :
  lookup cur (adj g) = Some d ->
  In v (map fst d) -> weighted (keydict_at d v) = false ->
  multi_candidates g cur (map fst d) r = inl KeyError /\
  forall hop_rate prev_key,
    hop_candidates g hop_rate prev_key cur (map fst d) r = inl KeyError.
Proof.
  intros Hd Hv Hw. apply weighted_false in Hw as (e & He & Hnone). split.
  - unfold multi_candidates.
    apply (outer_keyerror g cur d
             (fun neigh kd acc => for_each (map snd kd) (multi_edge neigh) acc)
             (map fst d) v); [exact Hd|apply incl_refl| |exact Hv|].
    + intros x acc r0. apply multi_inner_cases.
    + intros acc r0. apply multi_inner_keyerror. exists (snd e).
      split; [now apply in_map|exact Hnone].
  - intros hop_rate prev_key. unfold hop_candidates.
    apply (outer_keyerror g cur d
             (fun neigh kd acc => for_each kd (hop_edge hop_rate prev_key neigh) acc)
             (map fst d) v); [exact Hd|apply incl_refl| |exact Hv|].
    + intros x acc r0. apply hop_inner_cases.
    + intros acc r0. apply hop_inner_keyerror. now exists e.
Qed.

(** X6. When some edge out of the current node has no ['weight'] attribute,
    the step of both multigraph walkers raises [KeyError] before any draw
    is made, whatever the other weights; so does [do_walk] from such a seed
    as soon as it has a step to make. *)
Theorem missing_weight_raises (self : Walker) (g : Graph) (walk : list node)
  (cur v : node) (d : adjdict) (r : rng) :
  graph self = Some g -> last_error walk = Some cur ->
  lookup cur (adj g) = Some d ->
  In v (map fst d) -> weighted (keydict_at d v) = false ->
  MultiRandomWalker_step self walk r = inl KeyError /\
  (forall hop_rate prev_key,
      MultiRandomWalkerWithHops_step self hop_rate (walk, prev_key) r
        = inl KeyError) /\
  ((2 <= walk_length self)%Z ->
   (cls self = MultiRandomWalker \/
    exists hop_rate, cls self = MultiRandomWalkerWithHops hop_rate) ->
   do_walk self cur r = inl KeyError).
Proof.
  intros Hg Hlast Hd Hv Hw.
  destruct (candidates_keyerror g cur d v r Hd Hv Hw) as [Hm Hh].
  assert (Hne : (0 <? length (map fst d))%nat = true).
  { destruct d; [contradiction|reflexivity]. }
  assert (Hmulti : forall w, last_error w = Some cur ->
                             MultiRandomWalker_step self w r = inl KeyError).
  { intros w Hw'. unfold MultiRandomWalker_step.
    rewrite (bind_step _ _ _ _ _ (get_graph_ok _ _ _ Hg)).
    rewrite (bind_step _ _ _ _ _ (getitem_last_ok _ _ _ Hw')).
    rewrite (bind_step _ _ _ (map fst d) r) by (unfold neighbors; now rewrite Hd).
    rewrite Hne. now apply bind_inl. }
  assert (Hhop : forall w hop_rate prev_key,
             last_error w = Some cur ->
             MultiRandomWalkerWithHops_step self hop_rate (w, prev_key) r
             = inl KeyError).
  { intros w hop_rate prev_key Hw'. unfold MultiRandomWalkerWithHops_step.
    rewrite (bind_step _ _ _ _ _ (get_graph_ok _ _ _ Hg)).
    rewrite (bind_step _ _ _ _ _ (getitem_last_ok _ _ _ Hw')).
    rewrite (bind_step _ _ _ (map fst d) r) by (unfold neighbors; now rewrite Hd).
    rewrite Hne. now apply bind_inl. }
  split; [now apply Hmulti|]. split; [intros; now apply Hhop|].
  intros HL Hcls. unfold do_walk.
  destruct Hcls as [->|(hop_rate & ->)].
  - unfold MultiRandomWalker_do_walk.
    replace (range_len (walk_length self - 1))
      with (Datatypes.S (range_len (walk_length self - 2)))
      by (unfold range_len; lia).
    apply bind_inl. cbn [for_range]. apply bind_inl. now apply Hmulti.
  - unfold MultiRandomWalkerWithHops_do_walk.
    replace (range_len (walk_length self - 1))
      with (Datatypes.S (range_len (walk_length self - 2)))
      by (unfold range_len; lia).
    apply bind_inl. cbn [for_range]. apply bind_inl. now apply Hhop.
Qed.

Lemma missing_weight_raises_witness :
  let self := mkWalker (MultiRandomWalkerWithHops 5) 3%Z 1%Z None (Some half_weighted) in
  let d : adjdict := [(2%Z, unit_edge); (1%Z, bare_edge)] in
  lookup 0%Z (adj half_weighted) = Some d /\
  In 1%Z (map fst d) /\ weighted (keydict_at d 1%Z) = false /\
  MultiRandomWalker_step self [2; 0]%Z [7]%N = inl KeyError /\
  do_walk self 0%Z [7]%N = inl KeyError.
Proof.
  intros self d.
  assert (Hin : In 1%Z (map fst d)) by (simpl; auto).
  split; [reflexivity|]. split; [exact Hin|]. split; [reflexivity|].
  destruct (missing_weight_raises self half_weighted [2; 0]%Z 0%Z 1%Z d [7]%N
              eq_refl eq_refl eq_refl Hin eq_refl) as (Hm & _ & Hwalk).
  split; [exact Hm|]. apply Hwalk; [simpl; lia|].
  right. now exists 5.
Defined.

(** ** Candidates of weight zero *)





(** ** Degenerate runs of the driver *)

Lemma flat_map_repeat_nil {A} (l : list A) : flat_map (fun n => repeat n 0) l = [].
Proof. induction l as [|x l IH]; [reflexivity|exact IH]. Qed.

(** The corpus of a run, whatever [walk_number]. *)
Lemma do_walks_eq (self : Walker) (g : Graph) (r : rng) :
  let bound := set_graph (set_walks self []) g in
  do_walks self g r =
  (ws <- mapM (do_walk bound) (call_order g (walk_number self)) ;;
   ret (set_walks bound ws)) r.
Proof.
  intros bound. unfold do_walks. fold bound.
  now rewrite (do_walks_outer _ bound []) by reflexivity.
Qed.

(** X8. With a [walk_number] that is zero or negative, or on a graph
    without nodes, [do_walks] makes no walk at all: it returns with an
    empty corpus and the graph bound, the generator untouched, for every
    class and every [walk_length]. *)
Theorem do_walks_nothing_to_do (self : Walker) (g : Graph) (r : rng) :
  (walk_number self <= 0)%Z \/ nodes g = [] ->
  do_walks self g r =
  inr (mkWalker (cls self) (walk_length self) (walk_number self) (Some [])
         (Some g), r).
Proof.
  intros H. rewrite do_walks_eq. unfold call_order.
  assert (Hcalls : flat_map (fun n => repeat n (range_len (walk_number self)))
                     (nodes g) = []).
  { destruct H as [HK|Hn]; [|now rewrite Hn].
    replace (range_len (walk_number self)) with O by (unfold range_len; lia).
    apply flat_map_repeat_nil. }
  now rewrite Hcalls.
Qed.

Lemma do_walks_nothing_to_do_witness :
  let self := mkWalker (BiasedRandomWalker 2 (1 # 3)) 4%Z (-1)%Z None None in
  ((walk_number self <= 0)%Z \/ nodes two_isolated_nodes = []) /\
  do_walks self two_isolated_nodes [7]%N =
  inr (mkWalker (BiasedRandomWalker 2 (1 # 3)) 4%Z (-1)%Z (Some [])
         (Some two_isolated_nodes), [7]%N).
Proof.
  intros self.
  assert (H : (walk_number self <= 0)%Z \/ nodes two_isolated_nodes = [])
    by (left; simpl; lia).
  split; [exact H|].
  exact (do_walks_nothing_to_do self two_isolated_nodes [7]%N H).
Defined.

(** X9. A run of the driver never changes the class, [walk_length] or
    [walk_number] of the walker, and a second run, on the same or another
    graph, behaves as on the walker before the first run: the corpus and
    the graph of the first run are replaced, not extended. *)
Theorem do_walks_rebinds (self self1 : Walker) (g1 g2 : Graph) (r1 r1' r2 : rng) :
  do_walks self g1 r1 = inr (self1, r1') ->
  cls self1 = cls self /\
  walk_length self1 = walk_length self /\
  walk_number self1 = walk_number self /\
  do_walks self1 g2 r2 = do_walks self g2 r2.
Proof.
  intros H. rewrite do_walks_eq in H.
  apply bind_inr in H as (ws & r & _ & H). apply ret_inr in H as [<- _].
  repeat split.
Qed.

Lemma do_walks_rebinds_witness :
  let self := mkWalker RandomWalker 3%Z 2%Z (Some [["x"%string]]) None in
  let r := [1; 2; 3; 4; 5; 6; 7; 8; 9; 10; 11; 12; 13]%N in
  exists self1,
    do_walks self triangle r = inr (self1, [13]%N) /\
    walk_number self1 = walk_number self /\
    do_walks self1 dead_end [5; 6]%N = do_walks self dead_end [5; 6]%N.
Proof.
  intros self r.
  destruct (do_walks self triangle r) as [e|[self1 r']] eqn:E;
    [vm_compute in E; discriminate|].
  assert (Hr : r' = [13]%N) by (vm_compute in E; congruence).
  subst r'. exists self1. split; [reflexivity|].
  destruct (do_walks_rebinds self self1 triangle dead_end r [13]%N [5; 6]%N E)
    as (_ & _ & HK & Hagain).
  split; [exact HK|exact Hagain].
Defined.

(** ** The key the hop walker remembers *)

Lemma last_error_split {A} (l : list A) (x : A) :
  last_error l = Some x -> exists pre, l = pre ++ [x].
Proof.
  induction l as [|a l IH]; [discriminate|]. destruct l as [|b l].
  - intros [= ->]. now exists [].
  - intros H. destruct (IH H) as (pre & Hpre). exists (a :: pre).
    simpl. now rewrite <- Hpre.
Qed.

Lemma hop_step_inr (self : Walker) (hop_rate : Q) (g : Graph)
  (walk : list node) (prev_key : option key) (r : rng) st' r' :
  graph self = Some g ->
  MultiRandomWalkerWithHops_step self hop_rate (walk, prev_key) r = inr (st', r') ->
  st' = (walk, prev_key) \/
  exists x k, st' = (walk ++ [x], Some k) /\ arrived_by g (walk ++ [x]) k.
Proof.
  intros Hg H. unfold MultiRandomWalkerWithHops_step in H.
  apply (step_prefix_adj self g walk (fun g cur nebs => _)) in H
    as (cur & d & Hlast & Hd & H); [|exact Hg].
  destruct (0 <? _)%nat.
  - apply bind_inr in H as ([ns ws] & r1 & Hc & H).
    apply bind_inr in H as (s & r2 & Hs & H).
    apply bind_inr in H as ([x k] & r3 & Hxk & H).
    apply ret_inr in H as [<- _].
    apply random_choices_inr in Hs as (y & -> & Hy).
    apply getitem_inr in Hxk as [[= ->] _].
    right. exists x, k. split; [reflexivity|].
    destruct (hop_candidates_names _ _ _ _ _ _ _ _ _ Hc x k Hy)
      as (_ & d' & kd & Hd' & Hx & Hk).
    rewrite Hd in Hd'. injection Hd' as <-.
    destruct (last_error_split walk cur Hlast) as (pre & ->).
    exists pre, cur, x, d, kd. rewrite <- app_assoc. now repeat split.
  - apply ret_inr in H as [<- _]. now left.
Qed.

(** X10. Along a walk of the hop walker, the remembered key is [None] as
    long as the walk is the seed alone, and from the first move on it is
    the key of an edge of the graph between the last two nodes of the
    walk. *)
Theorem hop_walker_remembers_last_edge (self : Walker) (hop_rate : Q)
  (g : Graph) (seed : node) (j : nat) (st : list node * option key)
  (r0 r : rng) :
  graph self = Some g ->
  for_range j (MultiRandomWalkerWithHops_step self hop_rate) ([seed], None) r0
    = inr (st, r) ->
  remembers g seed st.
Proof.
  intros Hg.
  apply (for_range_inv (remembers g seed)); [|reflexivity].
  intros [walk pk] r1 st' r1' Hinv Hstep.
  apply (hop_step_inr self hop_rate g walk pk r1 st' r1' Hg) in Hstep
    as [->|(x & k & -> & Harr)]; [exact Hinv|exact Harr].
Qed.

Lemma hop_walker_remembers_last_edge_witness :
  let self := mkWalker (MultiRandomWalkerWithHops 5) 4%Z 1%Z None (Some parallel) in
  let r := [9007199254740991; 3; 4503599627370496]%N in
  for_range 2 (MultiRandomWalkerWithHops_step self 5) ([0%Z], None) r
    = inr (([0; 2; 0]%Z, Some 0%Z), [4503599627370496]%N) /\
  arrived_by parallel [0; 2; 0]%Z 0%Z.
Proof.
  intros self r.
  assert (Hrun : for_range 2 (MultiRandomWalkerWithHops_step self 5) ([0%Z], None) r
                 = inr (([0; 2; 0]%Z, Some 0%Z), [4503599627370496]%N))
    by (vm_compute; reflexivity).
  split; [exact Hrun|].
  exact (hop_walker_remembers_last_edge self 5 parallel 0%Z 2 _ r _ eq_refl Hrun).
Defined.

(** ** Graphs with a single edge type *)









(** ** Scaling the weights *)





















(** ** The biased walker with [p = q = 1] *)

Lemma py_sum_constant (c : Q) (ws : list Q) :
  Forall (fun w => w == c) ws -> py_sum ws == inject_Z (Z.of_nat (length ws)) * c.
Proof.
  induction 1 as [|w ws Hw Hws IH].
  - unfold py_sum. simpl. ring.
  - cbn [length]. rewrite py_sum_cons, IH, Nat2Z.inj_succ.
    unfold Z.succ. rewrite inject_Z_plus.
    transitivity (c + inject_Z (Z.of_nat (length ws)) * c); [|ring].
    apply Qplus_comp; [exact Hw|reflexivity].
Qed.

Lemma unit_weights_norm (ws : list Q) :
  Forall (fun w => w == 1) ws ->
  Forall (fun x => npfloat_eq x (Some (1 / inject_Z (Z.of_nat (length ws)))))
    (np_divide ws (py_sum ws)).
Proof.
  intros H. pose proof (py_sum_constant 1 ws H) as Hs.
  destruct ws as [|w0 ws0] eqn:E; [constructor|]. rewrite <- E in *.
  assert (Hn : 0 < inject_Z (Z.of_nat (length ws))).
  { apply inject_Z_of_nat_pos. rewrite E. simpl. lia. }
  assert (Hne : ~ inject_Z (Z.of_nat (length ws)) == 0).
  { intros H0. rewrite H0 in Hn. exact (Qlt_irrefl _ Hn). }
  unfold np_divide. apply Forall_map. eapply Forall_impl; [|exact H].
  intros w Hw. cbv beta.
  destruct (Qeq_bool (py_sum ws) 0) eqn:Eb.
  - apply Qeq_bool_iff in Eb. rewrite Hs in Eb. exfalso. apply Hne.
    rewrite <- Eb. ring.
  - unfold npfloat_eq. rewrite Hs, Hw. now field.
Qed.

Lemma repeat_Forall {A} (P : A -> Prop) (x : A) (n : nat) :
  P x -> Forall P (repeat x n).
Proof. intros H. induction n; simpl; constructor; auto. Qed.

(** X13. With [p = q = 1] the biased walker has no memory: at every step,
    whatever the previous node and its neighbours, the three weights
    coincide and the step is a uniform draw among the [n] neighbours of the
    current node, each with probability [1/n]. *)
Theorem biased_unit_parameters_uniform (self : Walker) (p q : Q) (g : Graph)
  (st : BiasedState) (cur : node) (d : adjdict) (r : rng) :
  p == 1 -> q == 1 ->
  graph self = Some g -> last_error (b_walk st) = Some cur ->
  lookup cur (adj g) = Some d ->
  let nbrs := map fst d in
  let n := length nbrs in
  BiasedRandomWalker_step self p q st r =
  (selected <- np_random_choice nbrs (repeat (Some (1 / inject_Z (Z.of_nat n))) n) ;;
   ret (mkBiased (b_walk st ++ [selected]) (Some cur) nbrs)) r.
Proof.
  intros Hp Hq Hg Hlast Hd nbrs n.
  assert (Hp0 : ~ p == 0) by (rewrite Hp; discriminate).
  assert (Hq0 : ~ q == 0) by (rewrite Hq; discriminate).
  set (ws := map (fun x => if is_common (previous_node_neighbors st) x then 1
                           else if is_previous (previous_node st) x then 1 / p
                           else 1 / q) nbrs).
  assert (Hws : Forall (fun w => w == 1) ws).
  { unfold ws. apply Forall_map, Forall_forall. intros x _.
    destruct (is_common _ x); [reflexivity|].
    destruct (is_previous _ x); [rewrite Hp|rewrite Hq]; reflexivity. }
  assert (Hlen : length ws = n) by (unfold ws; now rewrite length_map).
  unfold BiasedRandomWalker_step.
  rewrite (bind_step _ _ _ _ _ (getitem_last_ok _ _ _ Hlast)).
  rewrite (bind_step _ _ _ _ _ (get_graph_ok _ _ _ Hg)).
  rewrite (bind_step _ _ _ nbrs r) by (unfold neighbors; now rewrite Hd).
  rewrite (bind_step _ _ _ _ _ (biased_probability_eq _ _ _ _ _ _ Hp0 Hq0)).
  fold ws. unfold bind.
  rewrite (np_random_choice_comp nbrs (np_divide ws (py_sum ws))
             (repeat (Some (1 / inject_Z (Z.of_nat n))) n) r); [reflexivity|].
  apply (Forall2_of_constant (1 / inject_Z (Z.of_nat n))).
  - unfold np_divide. now rewrite length_map, repeat_length.
  - rewrite <- Hlen. now apply unit_weights_norm.
  - apply repeat_Forall. unfold npfloat_eq. reflexivity.
Qed.

Lemma biased_unit_parameters_uniform_witness :
  let self := mkWalker (BiasedRandomWalker 1 (3 # 3)) 4%Z 1%Z None (Some triangle) in
  let st := mkBiased [0; 2]%Z (Some 0%Z) [1; 2]%Z in
  let d : adjdict := [(0%Z, unit_edge); (1%Z, unit_edge)] in
  1 == 1 /\ (3 # 3) == 1 /\ lookup 2%Z (adj triangle) = Some d /\
  BiasedRandomWalker_step self 1 (3 # 3) st [4503599627370496]%N =
  inr (mkBiased [0; 2; 1]%Z (Some 2%Z) [0; 1]%Z, []).
Proof.
  intros self st d.
  assert (Hp : 1 == 1) by reflexivity.
  assert (Hq : (3 # 3) == 1) by reflexivity.
  split; [exact Hp|]. split; [exact Hq|]. split; [reflexivity|].
  rewrite (biased_unit_parameters_uniform self 1 (3 # 3) triangle st 2%Z d
             [4503599627370496]%N Hp Hq eq_refl eq_refl eq_refl).
  vm_compute. reflexivity.
Defined.

(** ** The base class *)

Lemma BaseWalker_inner (n : node) (k : nat) (L K : Z) ws (g : option Graph)
  (r : rng) :
  for_range k (BaseWalker_do_walks_body n) (mkBase L K (Some ws) g) r =
  inr (mkBase L K (Some (ws ++ repeat None k)) g, r).
Proof.
  revert ws. induction k as [|k IH]; intros ws.
  - simpl. now rewrite app_nil_r.
  - cbn [for_range]. unfold bind, BaseWalker_do_walks_body at 1.
    unfold BaseWalker_do_walk. cbv beta iota delta [bind ret base_walks
      base_walk_length base_walk_number base_graph].
    rewrite IH. now rewrite <- app_assoc.
Qed.

Lemma BaseWalker_outer (l : list node) (L K : Z) ws (g : option Graph) (r : rng) :
  for_each l
    (fun node self =>
       for_range (range_len (base_walk_number self))
         (BaseWalker_do_walks_body node) self)
    (mkBase L K (Some ws) g) r =
  inr (mkBase L K (Some (ws ++ repeat None (length l * range_len K))) g, r).
Proof.
  revert ws. induction l as [|n l IH]; intros ws.
  - simpl. now rewrite app_nil_r.
  - cbn [for_each]. unfold bind. cbn [base_walk_number].
    rewrite BaseWalker_inner, IH. cbn [length Nat.mul].
    now rewrite repeat_app, app_assoc.
Qed.

(** X14. [do_walks] of the base class never raises and draws nothing: since
    the stub [do_walk] returns [None], the corpus it leaves is
    [|nodes| * walk_number] times [None], whatever the graph and
    [walk_length], and nothing when [walk_number] is not positive. *)
Theorem BaseWalker_corpus_of_none (self : BaseWalker) (g : Graph) (r : rng) :
  BaseWalker_do_walks self g r =
  inr (mkBase (base_walk_length self) (base_walk_number self)
         (Some (repeat None (length (nodes g) * Z.to_nat (base_walk_number self))))
         (Some g), r).
Proof.
  unfold BaseWalker_do_walks. cbn [base_walk_length base_walk_number base_walks].
  now rewrite BaseWalker_outer.
Qed.

(** ** Negative parameters of the biased walker *)








(** ** The transition law of the biased walker *)






(** ** The walks of the corpus *)




(** ** The driver of the biased walker on a graph with an isolated node *)

Lemma mapM_raises {A B} (f : A -> M B) (l : list A) (x : A) :
  In x l -> (forall r, exists e, f x r = inl e) ->
  forall r, exists e, mapM f l r = inl e.
Proof.
  intros Hin Hx. induction l as [|a l IH]; [contradiction|]. intros r.
  simpl. unfold bind at 1. destruct (f a r) as [e|[y r1]] eqn:E; [eauto|].
  destruct Hin as [->|Hin].
  - destruct (Hx r) as (e & He). congruence.
  - destruct (IH Hin r1) as (e & He). exists e. unfold bind. now rewrite He.
Qed.

Lemma call_order_In (g : Graph) (K : Z) (n : node) :
  (1 <= K)%Z -> In n (nodes g) -> In n (call_order g K).
Proof.
  intros HK Hn. unfold call_order. apply in_flat_map. exists n.
  split; [exact Hn|].
  replace (range_len K) with (Datatypes.S (range_len (K - 1)))
    by (unfold range_len; lia).
  now left.
Qed.

(** X18. One node without neighbours is enough to make the driver of the
    biased walker fail: with [walk_length] at least 2 and [walk_number] at
    least 1, [do_walks] raises on every graph that has such a node and
    leaves no corpus, whatever the draws. *)
Theorem biased_driver_fails_on_isolated_node (self : Walker) (p q : Q)
  (g : Graph) (n : node) (r : rng) :
  ~ p == 0 -> ~ q == 0 ->
  cls self = BiasedRandomWalker p q ->
  (2 <= walk_length self)%Z -> (1 <= walk_number self)%Z ->
  In n (nodes g) -> lookup n (adj g) = Some [] ->
  exists e, do_walks self g r = inl e.
Proof.
  intros Hp Hq Hcls HL HK Hn Hsink. rewrite do_walks_eq.
  destruct (mapM_raises (do_walk (set_graph (set_walks self []) g))
              (call_order g (walk_number self)) n) with (r := r) as (e & He).
  - now apply call_order_In.
  - intros r0. exists empty_choice.
    now apply (biased_isolated_seed_raises _ p q g n r0).
  - exists e. now apply bind_inl.
Qed.

Lemma biased_driver_fails_on_isolated_node_witness :
  let g := mkGraph [(0%Z, [(1%Z, unit_edge)]); (1%Z, [(0%Z, unit_edge)]); (5%Z, [])] in
  let self := mkWalker (BiasedRandomWalker 2 (1 # 3)) 3%Z 1%Z None None in
  In 5%Z (nodes g) /\ lookup 5%Z (adj g) = Some [] /\
  exists e, do_walks self g [1; 2; 3; 4; 5; 6]%N = inl e.
Proof.
  intros g self.
  assert (Hin : In 5%Z (nodes g)) by (simpl; auto).
  split; [exact Hin|]. split; [reflexivity|].
  apply (biased_driver_fails_on_isolated_node self 2 (1 # 3) g 5%Z);
    try reflexivity; try discriminate; exact Hin.
Defined.

(** ** The first step of the hop walker *)




